(** * Kusanagi: enclosing-block location and pending-insertion tracking

    A shallow embedding of the two algorithmic parts of the extension:

    - [InsertionTracker] (src/insertion-tracker.ts): the map of pending
      insertions, [track], [remove], [applyResult], [adjustForChanges] and
      the range arithmetic of [shiftRange];
    - [getEnclosingBlock] (src/extension.ts) on top of the text document of
      tests/mocks/vscode.ts ([offsetAt], [positionAt], [lineAt], [getText]).

    Around them: [getEditorContext], [parseSlashCommand] and the part of
    [handlePromptCommand] that tracks a request and completes it
    (src/extension.ts), and [stripCodeFences] (src/utils.ts), whose
    pattern is embedded as the scan it denotes.

    Conventions.  JavaScript numbers that the code only ever combines with
    [+], [-], comparison and [Math.max] are integers here: line and column
    coordinates are [Z] (the tracker can compute negative ones), offsets
    into a text and loop counters that never go below zero are [nat].  A
    string that the code scans is a [list ascii], one element per code unit;
    identifiers and URIs, which are only compared, are [string]. *)

From Stdlib Require Import ZArith Ascii String List Lia Bool.
From stdpp Require Import base option list strings gmap fin_maps.

Set Default Proof Using "Type".

(** ** Text *)

Abbreviation text := (list ascii).

Definition NL : ascii := Ascii.ascii_of_nat 10.
Definition LBRACE : ascii := "{"%char.
Definition RBRACE : ascii := "}"%char.
Definition SEMI : ascii := ";"%char.

Definition chr_eqb (a b : ascii) : bool := Ascii.eqb a b.

(** [s.split("\n")]: the pieces of [s] between newlines; never empty. *)
Fixpoint splitLines (s : text) : list text :=
  match s with
  | [] => [[]]
  | c :: s' =>
      if chr_eqb c NL then [] :: splitLines s'
      else match splitLines s' with
           | [] => [[c]]
           | l :: ls => (c :: l) :: ls
           end
  end.

(** [lines.join("\n")]. *)
Fixpoint joinLines (ls : list text) : text :=
  match ls with
  | [] => []
  | [l] => l
  | l :: ls' => l ++ NL :: joinLines ls'
  end.

(** A string literal as a text. *)
Definition txt (s : string) : text := list_ascii_of_string s.

(** ** Positions and ranges (tests/mocks/vscode.ts) *)

Record Position : Type := mkPosition { line : Z; character : Z }.

Record Range : Type := mkRange { start : Position; end_ : Position }.

(** [new Range(startLine, startCharacter, endLine, endCharacter)]. *)
Definition Range4 (sl sc el ec : Z) : Range :=
  mkRange (mkPosition sl sc) (mkPosition el ec).

Definition translate (p : Position) (lineDelta characterDelta : Z) : Position :=
  mkPosition (line p + lineDelta) (character p + characterDelta).

Definition isEqual (p q : Position) : bool :=
  (line p =? line q)%Z && (character p =? character q)%Z.

Definition isBefore (p q : Position) : bool :=
  (line p <? line q)%Z || ((line p =? line q)%Z && (character p <? character q)%Z).

Definition isAfter (p q : Position) : bool :=
  (line p >? line q)%Z || ((line p =? line q)%Z && (character p >? character q)%Z).

Definition isEmpty (r : Range) : bool := isEqual (start r) (end_ r).

(** The data model's reading of a position and of a range: coordinates are
    not negative, and a range starts at or before its end. *)
Definition pos_nonneg (p : Position) : Prop := (0 <= line p)%Z /\ (0 <= character p)%Z.

Definition pos_le (p q : Position) : Prop :=
  (line p < line q)%Z \/ (line p = line q /\ character p <= character q)%Z.

Definition range_wf (r : Range) : Prop :=
  pos_nonneg (start r) /\ pos_nonneg (end_ r) /\ pos_le (start r) (end_ r).

(** ** Content changes and pending insertions *)

Module ContentChange.
(** [vscode.TextDocumentContentChangeEvent]: the replaced range and the
    text put in its place. *)
Record t : Type := mk { range : Range; text : list ascii }.
End ContentChange.

Module PendingInsertion.
Record t : Type := mk { id : string; uri : string; range : Range }.
End PendingInsertion.

(** [vscode.TextDocumentChangeEvent], reduced to what the tracker reads:
    [e.document.uri.toString()] and [e.contentChanges]. *)
Record ChangeEvent : Type := mkChangeEvent {
  docUri : string;
  contentChanges : list ContentChange.t
}.

Module InsertionTracker.

Local Open Scope Z_scope.

(** [private pending = new Map<string, PendingInsertion>()]. *)
Abbreviation pendingMap := (gmap string PendingInsertion.t).

(** The outcome of a call: it returns a value or throws. *)
Inductive Outcome (A : Type) : Type :=
| Returned (a : A)
| Thrown.
Arguments Returned {A} a.
Arguments Thrown {A}.

(** [track]: [this.pending.set(id, { id, uri, range })].  [Map.set] does
    not throw; the method has no other statement. *)
Definition track (id uri : string) (range : Range) (pending : pendingMap)
  : Outcome pendingMap :=
  Returned (<[id := PendingInsertion.mk id uri range]> pending).

(** [remove]: [this.pending.delete(id)]. *)
Definition remove (id : string) (pending : pendingMap) : pendingMap :=
  delete id pending.

(** [get activeCount]: [this.pending.size]. *)
Definition activeCount (pending : pendingMap) : nat := size pending.

(** [newText.split("\n").length - 1]. *)
Definition addedLineCount (newText : text) : Z :=
  Z.of_nat (length (splitLines newText)) - 1.

Definition removedLineCount (change : ContentChange.t) : Z :=
  line (end_ (ContentChange.range change)) - line (start (ContentChange.range change)).

Definition lineDelta (change : ContentChange.t) : Z :=
  addedLineCount (ContentChange.text change) - removedLineCount change.

(** [newLines[newLines.length - 1].length]. *)
Definition lastNewLineLength (newText : text) : Z :=
  Z.of_nat (length (List.last (splitLines newText) [])).

(** The three guards of [shiftRange], in the order the code tests them. *)
Definition changeAfter (range : Range) (change : ContentChange.t) : bool :=
  let changeStart := start (ContentChange.range change) in
  (line changeStart >? line (end_ range))
  || ((line changeStart =? line (end_ range))
      && (character changeStart >=? character (end_ range))).

Definition changeBefore (range : Range) (change : ContentChange.t) : bool :=
  let changeEnd := end_ (ContentChange.range change) in
  line changeEnd <? line (start range).

Definition changeAbuts (range : Range) (change : ContentChange.t) : bool :=
  let changeEnd := end_ (ContentChange.range change) in
  (line changeEnd =? line (start range))
  && (character changeEnd <=? character (start range)).

Definition shiftRange (range : Range) (change : ContentChange.t) : Range :=
  let changeStart := start (ContentChange.range change) in
  let changeEnd := end_ (ContentChange.range change) in
  let newText := ContentChange.text change in
  let lineDelta := lineDelta change in
  if changeAfter range change then range
  else if changeBefore range change then
    mkRange (translate (start range) lineDelta 0)
            (translate (end_ range) lineDelta 0)
  else if changeAbuts range change then
    let lastNewLineLength := lastNewLineLength newText in
    let '(newStartChar, newEndChar) :=
      if addedLineCount newText =? 0 then
        let charDelta :=
          lastNewLineLength - (character changeEnd - character changeStart) in
        (character (start range) + charDelta,
         if line (start range) =? line (end_ range)
         then character (end_ range) + charDelta
         else character (end_ range))
      else
        (character (start range) - character changeEnd + lastNewLineLength,
         if line (start range) =? line (end_ range)
         then character (end_ range) - character changeEnd + lastNewLineLength
         else character (end_ range)) in
    mkRange (mkPosition (line (start range) + lineDelta) newStartChar)
            (mkPosition (line (end_ range) + lineDelta) newEndChar)
  else
    mkRange
      (mkPosition (Z.max 0 (line (start range) + lineDelta))
                  (character (start range)))
      (mkPosition (Z.max 0 (line (end_ range) + lineDelta))
                  (character (end_ range))).

(** The inner loop of [adjustForChanges]:
    [for (const change of e.contentChanges) entry.range = shiftRange(entry.range, change)]. *)
Definition shiftThrough (changes : list ContentChange.t) (range : Range) : Range :=
  fold_left shiftRange changes range.

Definition adjustEntry (e : ChangeEvent) (entry : PendingInsertion.t)
  : PendingInsertion.t :=
  if decide (PendingInsertion.uri entry = docUri e) then
    PendingInsertion.mk (PendingInsertion.id entry) (PendingInsertion.uri entry)
      (shiftThrough (contentChanges e) (PendingInsertion.range entry))
  else entry.

(** [adjustForChanges]: every entry of the map is visited once and its
    [range] field is assigned in place; the keys do not change. *)
Definition adjustForChanges (e : ChangeEvent) (pending : pendingMap) : pendingMap :=
  adjustEntry e <$> pending.

(** A visible text editor, reduced to an identity and
    [e.document.uri.toString()]. *)
Record TextEditor : Type := mkTextEditor {
  editorId : nat;
  documentUri : string
}.

(** How the awaited [editor.edit(...)] ends: the promise resolves to a
    boolean, or it is rejected (the editor refuses the edit, or the
    callback throws). *)
Inductive EditOutcome : Type :=
| EditResolved (success : bool)
| EditRejected.

(** The host state [applyResult] reads: the string form of the URI of every
    open document ([d.uri.toString()] over [workspace.textDocuments]), the
    visible editors ([window.visibleTextEditors]), the round trip
    [vscode.Uri.parse(s).toString()], and how [editor.edit] ends for a
    given editor, range and text. *)
Record Host : Type := mkHost {
  textDocuments : list string;
  visibleTextEditors : list TextEditor;
  uriToString : string -> string;
  edit : TextEditor -> Range -> text -> EditOutcome
}.

(** [applyResult] is an [async] method with one [await].  Its first part
    runs to the early [return]s or to the call of [editor.edit]; the callback
    given to [editor.edit] runs in that same turn and reads [entry.range]. *)
Inductive ApplyStep : Type :=
| Finished (result : bool) (pending : pendingMap)
| AwaitEdit (editor : TextEditor) (range : Range) (newText : text).

Definition applyResult_begin (host : Host) (id : string) (newText : text)
    (pending : pendingMap) : ApplyStep :=
  match pending !! id with
  | None => Finished false pending
  | Some entry =>
      let uri := uriToString host (PendingInsertion.uri entry) in
      match List.find (fun d => String.eqb d uri) (textDocuments host) with
      | None => Finished false (delete id pending)
      | Some doc =>
          match List.find (fun e => String.eqb (documentUri e) uri)
                  (visibleTextEditors host) with
          | None => Finished false (delete id pending)
          | Some editor =>
              AwaitEdit editor (PendingInsertion.range entry) newText
          end
      end
  end.

(** The part after the [await], on the map as it is when the method
    resumes.  When the edit resolved: [this.pending.delete(id); return
    success].  When it was rejected the [await] throws: there is no [try]
    around it, so the method is left there, before the [delete], and its
    own promise is rejected. *)
Definition applyResult_resume (id : string) (outcome : EditOutcome)
    (pending : pendingMap) : Outcome bool * pendingMap :=
  match outcome with
  | EditResolved success => (Returned success, delete id pending)
  | EditRejected => (Thrown, pending)
  end.

(** A whole call.  [whileAwaiting] is what the event loop did to the map
    between the call of [editor.edit] and the resumption (document change
    events, other requests). *)
Definition applyResult (host : Host) (whileAwaiting : pendingMap -> pendingMap)
    (id : string) (newText : text) (pending : pendingMap)
    : Outcome bool * pendingMap :=
  match applyResult_begin host id newText pending with
  | Finished result pending' => (Returned result, pending')
  | AwaitEdit editor range newText' =>
      applyResult_resume id (edit host editor range newText') (whileAwaiting pending)
  end.

End InsertionTracker.

(** ** The text document (tests/mocks/vscode.ts, [createMockDocument]) *)

Module TextDocument.

(** A document is its content; [lines = content.split("\n")]. *)
Definition lines (content : text) : list text := splitLines content.

Definition lineCount (content : text) : nat := length (lines content).

(** [lines[lineNum] ?? ""]. *)
Definition lineTextAt (content : text) (lineNum : Z) : text :=
  if (lineNum <? 0)%Z then []
  else default [] (lines content !! Z.to_nat lineNum).

(** [String.prototype.trimEnd] and [trim] strip white space and line
    terminators; of the code units below 256 these are the ones here. *)
Definition isWhiteSpace (c : ascii) : bool :=
  let n := nat_of_ascii c in
  ((9 <=? n) && (n <=? 13)) || (n =? 32) || (n =? 160).

Fixpoint trimEnd (s : text) : text :=
  match s with
  | [] => []
  | c :: s' =>
      match trimEnd s' with
      | [] => if isWhiteSpace c then [] else [c]
      | t => c :: t
      end
  end.

(** [String.prototype.trimStart] and [trim]. *)
Fixpoint trimStart (s : list ascii) : list ascii :=
  match s with
  | [] => []
  | c :: s' => if isWhiteSpace c then trimStart s' else s
  end.

Definition trim (s : list ascii) : list ascii := trimEnd (trimStart s).

(** [s.endsWith(c)] for a one-character [c]. *)
Definition endsWith (s : text) (c : ascii) : bool :=
  match last s with
  | Some x => chr_eqb x c
  | None => false
  end.

Record TextLine : Type := mkTextLine {
  text : list ascii;
  lineNumber : Z;
  range : Range;
  isEmptyOrWhitespace : bool
}.

(** [lineAt]; [text.trim().length === 0] is written as "every character
    is white space", which is the same test. *)
Definition lineAt (content : list ascii) (lineNum : Z) : TextLine :=
  let text := lineTextAt content lineNum in
  mkTextLine text lineNum
    (Range4 lineNum 0 lineNum (Z.of_nat (length text)))
    (forallb isWhiteSpace text).

(** The sum of [lines[i].length + 1] over the given lines. *)
Fixpoint lengthsPlusOne (ls : list (list ascii)) : nat :=
  match ls with
  | [] => 0
  | l :: ls' => length l + 1 + lengthsPlusOne ls'
  end.

(** [offsetAt]: the loop adds [lines[i].length + 1] for every
    [i < position.line] that is also below [lines.length]. *)
Definition offsetAt (content : list ascii) (position : Position) : Z :=
  (Z.of_nat (lengthsPlusOne (take (Z.to_nat (line position)) (lines content)))
   + Z.min (character position)
           (Z.of_nat (length (lineTextAt content (line position)))))%Z.

(** The loop of [positionAt] from line [i] on, [ls] being the lines not yet
    visited. *)
Fixpoint positionAt_from (ls : list (list ascii)) (i remaining : nat)
    : option Position :=
  match ls with
  | [] => None
  | l :: ls' =>
      if remaining <=? length l
      then Some (mkPosition (Z.of_nat i) (Z.of_nat remaining))
      else positionAt_from ls' (S i) (remaining - (length l + 1))
  end.

Definition positionAt (content : list ascii) (offset : nat) : Position :=
  match positionAt_from (lines content) 0 offset with
  | Some p => p
  | None =>
      mkPosition (Z.of_nat (length (lines content)) - 1)
                 (Z.of_nat (length (List.last (lines content) [])))
  end.

(** [String.prototype.slice(a, b)]: a negative index counts from the end. *)
Definition sliceIndex (len i : Z) : Z :=
  if (i <? 0)%Z then Z.max (len + i) 0 else Z.min i len.

Definition slice (s : list ascii) (a b : Z) : list ascii :=
  let len := Z.of_nat (length s) in
  let from := sliceIndex len a in
  let to := sliceIndex len b in
  take (Z.to_nat (to - from)) (drop (Z.to_nat from) s).

(** [getText(range)]. *)
Definition getText (content : list ascii) (range : Range) : list ascii :=
  slice content (offsetAt content (start range)) (offsetAt content (end_ range)).

End TextDocument.

(** ** The block locator (src/extension.ts, [getEnclosingBlock]) *)

Module BlockLocator.

Import TextDocument.

(** [text[i] === c]; out of range [text[i]] is [undefined]. *)
Definition charIs (t : list ascii) (i : nat) (c : ascii) : bool :=
  match t !! i with
  | Some x => chr_eqb x c
  | None => false
  end.

(** The backward scan, [for (let i = offset - 1; i >= 0; i--)]: the first
    argument after the text is [i + 1]. *)
Fixpoint scanBackward (t : list ascii) (next : nat) (depth : Z) : option nat :=
  match next with
  | O => None
  | S i =>
      if charIs t i RBRACE then scanBackward t i (depth + 1)
      else if charIs t i LBRACE then
        if (depth =? 0)%Z then Some i
        else scanBackward t i (depth - 1)
      else scanBackward t i depth
  end.

(** The forward scan on the current line,
    [for (let i = offset; i < text.length; i++)]: [rest] is the text from
    index [i] on. *)
Fixpoint scanLine (rest : list ascii) (i : nat) : option nat :=
  match rest with
  | [] => None
  | c :: rest' =>
      if chr_eqb c NL then None
      else if chr_eqb c LBRACE then Some i
      else scanLine rest' (S i)
  end.

(** The scan for the matching closing brace; the result is [blockEnd],
    one past the brace. *)
Fixpoint scanClosing (rest : list ascii) (i : nat) (depth : Z) : option nat :=
  match rest with
  | [] => None
  | c :: rest' =>
      if chr_eqb c LBRACE then scanClosing rest' (S i) (depth + 1)
      else if chr_eqb c RBRACE then
        if (depth - 1 =? 0)%Z then Some (i + 1)
        else scanClosing rest' (S i) (depth - 1)
      else scanClosing rest' (S i) depth
  end.

(** [blockStart], with [None] for the sentinel [-1]. *)
Definition findBlockStart (t : list ascii) (offset : nat) : option nat :=
  match scanBackward t offset 0 with
  | Some i => Some i
  | None => scanLine (drop offset t) offset
  end.

Definition findBlockEnd (t : list ascii) (blockStart : nat) : option nat :=
  scanClosing (drop (blockStart + 1) t) (blockStart + 1) 1.

(** The test that ends the upward walk. *)
Definition endsDeclaration (lineText : list ascii) : bool :=
  match lineText with
  | [] => true
  | _ => endsWith lineText SEMI || endsWith lineText RBRACE
         || endsWith lineText LBRACE
  end.

(** The upward walk, [for (let line = startPos.line - 1; line >= 0; line--)]:
    the second argument is [line + 1]. *)
Fixpoint walkUp (content : list ascii) (next : nat) (firstLine : Z) : Z :=
  match next with
  | O => firstLine
  | S l =>
      let lineText := trimEnd (text (lineAt content (Z.of_nat l))) in
      if endsDeclaration lineText then firstLine
      else walkUp content l (Z.of_nat l)
  end.

Record Block : Type := mkBlock { blockText : list ascii; blockRange : Range }.

(** The last part of [getEnclosingBlock], from [blockStart] and [blockEnd]
    to the result. *)
Definition blockOf (content : list ascii) (blockStart blockEnd : nat) : Block :=
  let startPos := positionAt content blockStart in
  let firstLine := walkUp content (Z.to_nat (line startPos)) (line startPos) in
  let endPos := positionAt content blockEnd in
  let endLine := lineAt content (line endPos) in
  let range := mkRange (mkPosition firstLine 0) (end_ (range endLine)) in
  mkBlock (getText content range) range.

(** [getEnclosingBlock] once [offset = document.offsetAt(position)] is
    known.  A loop that starts at a negative [offset] reads [undefined]
    up to index 0, so it behaves as one that starts at 0. *)
Definition getEnclosingBlockAt (content : list ascii) (offset : Z) : option Block :=
  let t := content in
  match findBlockStart t (Z.to_nat offset) with
  | None => None
  | Some blockStart =>
      match findBlockEnd t blockStart with
      | None => None
      | Some blockEnd => Some (blockOf content blockStart blockEnd)
      end
  end.

Definition getEnclosingBlock (content : list ascii) (position : Position)
    : option Block :=
  getEnclosingBlockAt content (offsetAt content position).

(** [editor.selection], reduced to what [getEditorContext] reads: the
    selected range ([start], [end], [isEmpty]) and the cursor ([active]). *)
Record Selection : Type := mkSelection {
  selected : Range;
  active : Position
}.

Inductive ContextType : Type := CtxSelection | CtxBlock | CtxLine.

Record EditorContext : Type := mkEditorContext {
  ctxText : list ascii;
  ctxType : ContextType;
  ctxRange : Range
}.

(** [getEditorContext]: the selection if there is one, else the enclosing
    block, else the cursor line unless it is blank. *)
Definition getEditorContext (content : list ascii) (selection : Selection)
    : option EditorContext :=
  if negb (isEmpty (selected selection)) then
    Some (mkEditorContext (getText content (selected selection)) CtxSelection
            (mkRange (start (selected selection)) (end_ (selected selection))))
  else
    match getEnclosingBlock content (active selection) with
    | Some block =>
        Some (mkEditorContext (blockText block) CtxBlock (blockRange block))
    | None =>
        let line := lineAt content (line (active selection)) in
        if negb (isEmptyOrWhitespace line) then
          Some (mkEditorContext (text line) CtxLine (range line))
        else None
    end.

End BlockLocator.

(** ** Slash commands (src/extension.ts, [parseSlashCommand]) *)

Module SlashCommands.

Import TextDocument.

Record QuickAction : Type := mkQuickAction {
  label : string;
  icon : string;
  prompt : string;
  slash : string
}.

Definition QUICK_ACTIONS : list QuickAction :=
  [ mkQuickAction "Document" "$(book)"
      "Add documentation comments to this code. Use the appropriate doc comment style for the language (JSDoc, docstring, etc.). Do not change the code itself."
      "document";
    mkQuickAction "Refactor" "$(edit)"
      "Refactor this code to improve readability and maintainability. Preserve the exact same external behavior."
      "refactor";
    mkQuickAction "Explain" "$(comment-discussion)"
      "Add inline comments explaining what this code does. Explain non-obvious logic and edge cases. Do not change the code itself, only add comments."
      "explain";
    mkQuickAction "Fix" "$(debug-alt)"
      "Identify and fix bugs or issues in this code. Preserve the intended behavior."
      "fix" ].

(** [s.startsWith(prefix)]. *)
Fixpoint startsWith (s prefix : list ascii) : bool :=
  match prefix, s with
  | [], _ => true
  | _ :: _, [] => false
  | p :: prefix', c :: s' => chr_eqb c p && startsWith s' prefix'
  end.

(** [`/${action.slash}`]. *)
Definition commandPrefix (action : QuickAction) : list ascii :=
  txt "/" ++ txt (slash action).

(** The loop of [parseSlashCommand] over the actions not yet tried. *)
Fixpoint matchActions (actions : list QuickAction) (trimmed : list ascii)
    : option (QuickAction * list ascii) :=
  match actions with
  | [] => None
  | action :: rest =>
      let prefix := commandPrefix action in
      if bool_decide (trimmed = prefix) || startsWith trimmed (prefix ++ txt " ")
      then Some (action, trim (drop (length prefix) trimmed))
      else matchActions rest trimmed
  end.

Definition parseSlashCommand (input : list ascii)
    : option (QuickAction * list ascii) :=
  let trimmed := trim input in
  if negb (startsWith trimmed (txt "/")) then None
  else matchActions QUICK_ACTIONS trimmed.

(** The label [handlePromptCommand] writes for a slash command:
    ["/" + action.slash + (extra ? " " + extra : "")]. *)
Definition commentLabel (action : QuickAction) (extra : list ascii) : list ascii :=
  txt "/" ++ txt (slash action)
  ++ match extra with
     | [] => []
     | _ => txt " " ++ extra
     end.

End SlashCommands.

(** ** Code fences (src/utils.ts, [stripCodeFences]) *)

Module CodeFences.

Import TextDocument SlashCommands.

Definition FENCE : list ascii := txt "```".

(** The part of the pattern after the opening backticks, any characters
    but newlines and then a newline: the characters up to the first
    newline and that newline; the result is the text after it.  The class
    excludes the newline, so the greedy star can stop nowhere else. *)
Fixpoint afterFirstNewline (s : list ascii) : option (list ascii) :=
  match s with
  | [] => None
  | c :: s' => if chr_eqb c NL then Some s' else afterFirstNewline s'
  end.

(** The capture group, any characters, followed by a newline and three
    backticks: the group is greedy, so it ends at the last place where a
    newline and three backticks follow; the result is the length of the
    group. *)
Fixpoint lastClosingFence (s : list ascii) : option nat :=
  match s with
  | [] => None
  | _ :: s' =>
      match lastClosingFence s' with
      | Some j => Some (S j)
      | None => if startsWith s (NL :: FENCE) then Some 0%nat else None
      end
  end.

(** [trimmed.match(...)], reduced to its group 1: the pattern is three
    backticks at the start of the text, the rest of that line, the group,
    and a newline followed by three backticks. *)
Definition matchFence (trimmed : list ascii) : option (list ascii) :=
  if startsWith trimmed FENCE then
    match afterFirstNewline (drop (length FENCE) trimmed) with
    | Some body =>
        match lastClosingFence body with
        | Some j => Some (take j body)
        | None => None
        end
    | None => None
    end
  else None.

Definition stripCodeFences (input : list ascii) : list ascii :=
  let trimmed := trim input in
  match matchFence trimmed with
  | Some group => trimEnd group
  | None => trimmed
  end.

End CodeFences.

(** ** The life of a request (src/extension.ts, [handlePromptCommand]) *)

Module Coordinator.

Import InsertionTracker.

(** [ProviderResult]. *)
Record ProviderResult : Type := mkProviderResult {
  resultText : list ascii;
  cancelled : bool
}.

(** How [await currentProvider.run(...)] ends: the promise resolves or is
    rejected. *)
Inductive RunOutcome : Type :=
| RunResolved (result : ProviderResult)
| RunRejected.

(** Document change events as the listener of the tracker receives them,
    one after the other. *)
Definition deliver (events : list ChangeEvent)
    (pending : gmap string PendingInsertion.t) : gmap string PendingInsertion.t :=
  fold_left (fun p e => adjustForChanges e p) events pending.

(** [handlePromptCommand] from the end of [await currentProvider.run(...)]
    on, as far as the tracker is concerned; [pending] is the map at that
    moment.  Three things can throw inside the [try]: the run of the
    provider, [tracker.applyResult], and showing the text in a new
    document, tried when [applyResult] answers [false]
    ([showFallbackFails]); the [catch] block then calls [tracker.remove]. *)
Definition completeRequest (host : Host)
    (whileAwaiting : gmap string PendingInsertion.t -> gmap string PendingInsertion.t)
    (showFallbackFails : bool)
    (requestId : string) (outcome : RunOutcome)
    (pending : gmap string PendingInsertion.t) : gmap string PendingInsertion.t :=
  match outcome with
  | RunRejected => remove requestId pending
  | RunResolved result =>
      if cancelled result then remove requestId pending
      else
        match TextDocument.trim (resultText result) with
        | [] => remove requestId pending
        | _ =>
            match applyResult host whileAwaiting requestId (resultText result)
                    pending with
            | (Returned applied, pending') =>
                if negb applied && showFallbackFails
                then remove requestId pending'
                else pending'
            | (Thrown, pending') => remove requestId pending'
            end
        end
  end.

End Coordinator.

(** ** Vocabulary of the statements *)

Module Spec.

Import InsertionTracker.

(** The number of newlines in a text. *)
Definition newlines (s : list ascii) : nat := count_occ ascii_dec s NL.

(** The net line shift of a change as the specification words it: the
    newlines of the inserted text minus the lines the replaced range
    spanned. *)
Definition specLineDelta (change : ContentChange.t) : Z :=
  (Z.of_nat (newlines (ContentChange.text change))
   - (line (end_ (ContentChange.range change))
      - line (start (ContentChange.range change))))%Z.

(** Both endpoints moved by [dl] lines, columns kept. *)
Definition shiftedLines (r : Range) (dl : Z) : Range :=
  mkRange (mkPosition (line (start r) + dl) (character (start r)))
          (mkPosition (line (end_ r) + dl) (character (end_ r))).

(** Both endpoints moved by [dl] lines but not above line 0, columns kept. *)
Definition clampedLines (r : Range) (dl : Z) : Range :=
  mkRange (mkPosition (Z.max 0 (line (start r) + dl)) (character (start r)))
          (mkPosition (Z.max 0 (line (end_ r) + dl)) (character (end_ r))).

(** The position at which the inserted text of a change ends in the new
    document. *)
Definition insertedEnd (change : ContentChange.t) : Position :=
  let changeStart := start (ContentChange.range change) in
  let added := newlines (ContentChange.text change) in
  mkPosition (line changeStart + Z.of_nat added)
    ((if (added =? 0)%nat then character changeStart else 0)
     + lastNewLineLength (ContentChange.text change))%Z.

(** The column shift applied to a position on the line where a change
    ends: it keeps the distance to the end of the inserted text equal to
    the former distance to the end of the replaced range. *)
Definition columnDelta (change : ContentChange.t) : Z :=
  (character (insertedEnd change)
   - character (end_ (ContentChange.range change)))%Z.

(** The change that inserts a text at a position, and the change that
    takes the inserted text out again. *)
Definition insertionAt (p : Position) (newText : list ascii) : ContentChange.t :=
  ContentChange.mk (mkRange p p) newText.

Definition undoInsertion (p : Position) (newText : list ascii) : ContentChange.t :=
  ContentChange.mk (mkRange p (insertedEnd (insertionAt p newText))) [].

(** The three ways a change can miss the range, and the overlap that is
    left, as propositions. *)
Definition startsAtOrAfterEnd (r : Range) (change : ContentChange.t) : Prop :=
  pos_le (end_ r) (start (ContentChange.range change)).

Definition overlaps (r : Range) (change : ContentChange.t) : Prop :=
  changeAfter r change = false /\ changeBefore r change = false
  /\ changeAbuts r change = false.

(** The text ["line1\nline2\n"] of the rebasing scenario. *)
Definition twoLines : list ascii := txt "line1" ++ NL :: txt "line2" ++ [NL].

(** The document of an entry is open and shown in a visible editor. *)
Definition targetAvailable (host : Host) (entryUri : string) : bool :=
  existsb (fun d => String.eqb d (uriToString host entryUri)) (textDocuments host)
  && existsb (fun e => String.eqb (documentUri e) (uriToString host entryUri))
       (visibleTextEditors host).

(** A host with one open document, shown in one editor, whose writes
    succeed. *)
Definition demoHost : Host :=
  mkHost ["d"%string] [mkTextEditor 0 "d"] (fun s => s)
    (fun _ _ _ => EditResolved true).

(** The same host with an editor whose [edit] is rejected. *)
Definition rejectingHost : Host :=
  mkHost ["d"%string] [mkTextEditor 0 "d"] (fun s => s)
    (fun _ _ _ => EditRejected).

(** *** Braces *)

Definition opens (s : list ascii) : nat := count_occ ascii_dec s LBRACE.
Definition closes (s : list ascii) : nat := count_occ ascii_dec s RBRACE.

(** Texts whose braces pair up. *)
Inductive Balanced : list ascii -> Prop :=
| Balanced_nil : Balanced []
| Balanced_other c s :
    c <> LBRACE -> c <> RBRACE -> Balanced s -> Balanced (c :: s)
| Balanced_pair s1 s2 :
    Balanced s1 -> Balanced s2 -> Balanced (LBRACE :: s1 ++ RBRACE :: s2).

(** The part of a text before its first newline. *)
Fixpoint restOfLine (s : list ascii) : list ascii :=
  match s with
  | [] => []
  | c :: s' => if chr_eqb c NL then [] else c :: restOfLine s'
  end.

(** The backward scan as a scan of the text before the cursor read from
    its end: a hit is reported as the number of characters left unread,
    which is the index of the brace. *)
Fixpoint scanReversed (l : list ascii) (depth : Z) : option nat :=
  match l with
  | [] => None
  | c :: l' =>
      if chr_eqb c RBRACE then scanReversed l' (depth + 1)
      else if chr_eqb c LBRACE then
        if (depth =? 0)%Z then Some (length l')
        else scanReversed l' (depth - 1)
      else scanReversed l' depth
  end.

(** *** Lines *)

(** The line an offset is on: the number of newlines before it. *)
Definition lineOfOffset (content : list ascii) (offset : nat) : nat :=
  newlines (take offset content).

(** Line [l] of a document, [""] past the last line. *)
Definition lineText (content : list ascii) (l : nat) : list ascii :=
  default [] (splitLines content !! l).

(** A line that the upward walk takes into the block: trimmed of trailing
    white space it is not empty and ends in none of [;], [}], [{]. *)
Definition continuesDeclaration (lineText : list ascii) : Prop :=
  exists body c,
    TextDocument.trimEnd lineText = body ++ [c]
    /\ c <> SEMI /\ c <> RBRACE /\ c <> LBRACE.

(** Lines [first] to [last] of a document, joined by newlines. *)
Definition linesBetween (content : list ascii) (first last : nat) : list ascii :=
  joinLines (drop first (take (S last) (splitLines content))).

(** The document of the nested-function test. *)
Definition nestedExample : list ascii :=
  joinLines [txt "function outer() {"; txt "  function inner() {";
             txt "    return 1;"; txt "  }"; txt "}"].

(** The documents of the two negative tests. *)
Definition noBraceExample : list ascii :=
  joinLines [txt "const x = 1;"; txt "const y = 2;"].

Definition unclosedExample : list ascii :=
  joinLines [txt "function foo() {"; txt "  const x = 1;"].

(** The nested-function document cut around the inner brace pair and the
    cursor of the test, line 2 column 4. *)
Definition nestedPre : list ascii :=
  txt "function outer() {" ++ NL :: txt "  function inner() ".
Definition nestedInner1 : list ascii := NL :: txt "    ".
Definition nestedInner2 : list ascii := txt "return 1;" ++ NL :: txt "  ".
Definition nestedPost : list ascii := NL :: txt "}".

(** The document of the multi-line signature test. *)
Definition signatureExample : list ascii :=
  joinLines [txt "function foo("; txt "  a: number,"; txt "  b: number";
             txt ") {"; txt "  return a + b;"; txt "}"].

(** *** Documents under a change *)

(** The length of the last line of a text: the column just after it. *)
Definition lastLineLength (s : list ascii) : nat :=
  length (List.last (splitLines s) []).

(** The document after the text between offsets [a] and [b] is replaced. *)
Definition replaceBetween (content : list ascii) (a b : nat)
    (newText : list ascii) : list ascii :=
  take a content ++ newText ++ drop b content.

(** Where the character at offset [o], at or after the replaced text,
    is found in the new document. *)
Definition offsetAfterChange (a b : nat) (newText : list ascii) (o : nat) : nat :=
  (a + length newText + (o - b))%nat.

(** *** Positions in a document *)

(** A position of the document: on one of its lines, at a column from 0
    to the length of the line. *)
Definition validPosition (content : list ascii) (p : Position) : Prop :=
  (0 <= line p)%Z /\ (Z.to_nat (line p) < length (splitLines content))%nat
  /\ (0 <= character p)%Z
  /\ (character p <= Z.of_nat (length (lineText content (Z.to_nat (line p)))))%Z.

(** A text that occurs in another one as a contiguous part. *)
Definition partOf (part whole : list ascii) : Prop :=
  exists before after, whole = before ++ part ++ after.

(** The range of the whole document. *)
Definition fullRange (content : list ascii) : Range :=
  let lastLine := (length (splitLines content) - 1)%nat in
  Range4 0 0 (Z.of_nat lastLine) (Z.of_nat (length (lineText content lastLine))).

End Spec.

(** * Properties of texts and lines *)

Module TextProps.

Import TextDocument Spec.

Lemma chr_eqb_eq (a b : ascii) : chr_eqb a b = true <-> a = b.
Proof. unfold chr_eqb. apply Ascii.eqb_eq. Qed.

Lemma chr_eqb_neq (a b : ascii) : chr_eqb a b = false <-> a <> b.
Proof. unfold chr_eqb. apply Ascii.eqb_neq. Qed.

Lemma splitLines_nonempty (s : list ascii) : splitLines s <> [].
Proof.
  destruct s as [|c s]; simpl; [discriminate|].
  destruct (chr_eqb c NL); [discriminate|].
  destruct (splitLines s); discriminate.
Qed.

Lemma splitLines_length (s : list ascii) :
  length (splitLines s) = S (newlines s).
Proof.
  unfold newlines. induction s as [|c s IH]; simpl; [reflexivity|].
  unfold chr_eqb. destruct (Ascii.eqb_spec c NL) as [->|Hne].
  - destruct (ascii_dec NL NL); [|congruence]. simpl. now rewrite IH.
  - destruct (ascii_dec c NL); [congruence|].
    destruct (splitLines s) eqn:E; simpl in *; [discriminate | exact IH].
Qed.

Lemma newlines_cons (c : ascii) (s : list ascii) :
  newlines (c :: s) = ((if chr_eqb c NL then 1 else 0) + newlines s)%nat.
Proof.
  unfold newlines, chr_eqb. simpl.
  destruct (ascii_dec c NL) as [->|Hne].
  - now rewrite Ascii.eqb_refl.
  - apply Ascii.eqb_neq in Hne. now rewrite Hne.
Qed.

Lemma newlines_app (s1 s2 : list ascii) :
  newlines (s1 ++ s2) = (newlines s1 + newlines s2)%nat.
Proof. unfold newlines. apply count_occ_app. Qed.

Lemma newlines_not_elem (s : list ascii) : NL ∉ s -> newlines s = 0%nat.
Proof. rewrite list_elem_of_In. unfold newlines. apply count_occ_not_In. Qed.

Lemma joinLines_cons (l : list ascii) (ls : list (list ascii)) :
  ls <> [] -> joinLines (l :: ls) = l ++ NL :: joinLines ls.
Proof. destruct ls; [congruence | reflexivity]. Qed.

Lemma joinLines_splitLines (s : list ascii) : joinLines (splitLines s) = s.
Proof.
  induction s as [|c s IH]; [reflexivity|].
  simpl splitLines. pose proof (splitLines_nonempty s) as Hne.
  destruct (chr_eqb c NL) eqn:E.
  - apply chr_eqb_eq in E. subst c.
    rewrite joinLines_cons by exact Hne. simpl. now rewrite IH.
  - destruct (splitLines s) as [|l ls]; [congruence|].
    destruct ls as [|l' ls].
    + simpl in *. now rewrite IH.
    + rewrite joinLines_cons in IH by discriminate.
      rewrite joinLines_cons by discriminate.
      rewrite <- IH. reflexivity.
Qed.

Lemma splitLines_no_newline (s : list ascii) :
  Forall (fun l => NL ∉ l) (splitLines s).
Proof.
  induction s as [|c s IH]; simpl.
  - constructor; [apply not_elem_of_nil | constructor].
  - destruct (chr_eqb c NL) eqn:E.
    + constructor; [apply not_elem_of_nil | exact IH].
    + apply chr_eqb_neq in E.
      destruct (splitLines s) as [|l ls]; [repeat constructor|].
      * intros Hin. apply list_elem_of_singleton in Hin. congruence.
      * inversion IH as [|? ? Hl Hls]; subst. constructor; [|exact Hls].
        intros Hin. apply elem_of_cons in Hin as [Heq|Hin]; [congruence | auto].
Qed.

Lemma lengthsPlusOne_app (l1 l2 : list (list ascii)) :
  lengthsPlusOne (l1 ++ l2) = (lengthsPlusOne l1 + lengthsPlusOne l2)%nat.
Proof. induction l1 as [|l l1 IH]; simpl; [reflexivity | lia]. Qed.

Lemma lengthsPlusOne_take_le (ls : list (list ascii)) (k : nat) :
  (lengthsPlusOne (take k ls) <= lengthsPlusOne ls)%nat.
Proof.
  rewrite <- (take_drop k ls) at 2. rewrite lengthsPlusOne_app. lia.
Qed.

Lemma lengthsPlusOne_joinLines (ls : list (list ascii)) :
  ls <> [] -> lengthsPlusOne ls = S (length (joinLines ls)).
Proof.
  induction ls as [|l ls IH]; [congruence|]. intros _.
  destruct ls as [|l' ls].
  - simpl. lia.
  - rewrite joinLines_cons by discriminate.
    change (lengthsPlusOne (l :: l' :: ls))
      with (length l + 1 + lengthsPlusOne (l' :: ls))%nat.
    rewrite IH by discriminate. rewrite length_app. simpl. lia.
Qed.

(** The text from the start of line [f] on. *)
Lemma drop_joinLines (ls : list (list ascii)) (f : nat) :
  (f < length ls)%nat ->
  drop (lengthsPlusOne (take f ls)) (joinLines ls) = joinLines (drop f ls).
Proof.
  revert f. induction ls as [|l ls IH]; intros f Hf; [simpl in Hf; lia|].
  destruct f as [|f]; [reflexivity|].
  simpl in Hf. assert (Hne : ls <> []) by (destruct ls; simpl in *; [lia | discriminate]).
  rewrite joinLines_cons by exact Hne. simpl take. simpl lengthsPlusOne.
  rewrite drop_app_ge by lia.
  replace (length l + 1 + lengthsPlusOne (take f ls) - length l)%nat
    with (S (lengthsPlusOne (take f ls))) by lia.
  simpl. apply IH. lia.
Qed.

(** The text up to the end of line [e]. *)
Lemma take_joinLines (ls : list (list ascii)) (e : nat) (le : list ascii) :
  ls !! e = Some le ->
  take (lengthsPlusOne (take e ls) + length le) (joinLines ls)
  = joinLines (take (S e) ls).
Proof.
  revert e. induction ls as [|l ls IH]; intros e He; [discriminate|].
  destruct e as [|e].
  - simpl in He. injection He as ->. simpl.
    destruct ls as [|l' ls]; simpl.
    + apply take_ge. lia.
    + now rewrite take_app_length.
  - simpl in He.
    assert (Hne : ls <> []) by (destruct ls; [discriminate | discriminate]).
    rewrite joinLines_cons by exact Hne.
    change (take (S (S e)) (l :: ls)) with (l :: take (S e) ls).
    rewrite joinLines_cons by (destruct ls; [congruence | discriminate]).
    simpl take at 1. simpl lengthsPlusOne.
    rewrite take_app_ge by lia.
    replace (length l + 1 + lengthsPlusOne (take e ls) + length le - length l)%nat
      with (S (lengthsPlusOne (take e ls) + length le)) by lia.
    simpl. now rewrite (IH e He).
Qed.

(** *** The last line of a text *)

Lemma lastLineLength_cons (c : ascii) (s : list ascii) :
  lastLineLength (c :: s)
  = if chr_eqb c NL then lastLineLength s
    else if (newlines s =? 0)%nat then S (lastLineLength s)
    else lastLineLength s.
Proof.
  unfold lastLineLength. simpl splitLines.
  pose proof (splitLines_length s) as Hlen.
  destruct (chr_eqb c NL).
  - destruct (splitLines s) as [|l ls] eqn:E; [discriminate | reflexivity].
  - destruct (splitLines s) as [|l ls] eqn:E; [discriminate|].
    destruct ls as [|l' ls]; simpl in Hlen.
    + replace (newlines s) with 0%nat by lia. reflexivity.
    + replace (newlines s) with (S (length ls)) by lia. reflexivity.
Qed.

Lemma lastLineLength_plain (s : list ascii) :
  newlines s = 0%nat -> lastLineLength s = length s.
Proof.
  induction s as [|c s IH]; [reflexivity|].
  rewrite newlines_cons, lastLineLength_cons.
  destruct (chr_eqb c NL); [discriminate|]. simpl. intros H.
  rewrite H. simpl. now rewrite IH.
Qed.

(** Text without a newline lengthens the last line. *)
Lemma lastLineLength_app_plain (x y : list ascii) :
  newlines y = 0%nat ->
  lastLineLength (x ++ y) = (lastLineLength x + length y)%nat.
Proof.
  intros Hy. induction x as [|c x IH]; simpl.
  - now apply lastLineLength_plain.
  - rewrite !lastLineLength_cons, newlines_app, Hy, Nat.add_0_r.
    destruct (chr_eqb c NL); [exact IH|].
    destruct (newlines x =? 0)%nat; lia.
Qed.

(** Text with a newline starts the last line afresh. *)
Lemma lastLineLength_app_newline (x y : list ascii) :
  (0 < newlines y)%nat -> lastLineLength (x ++ y) = lastLineLength y.
Proof.
  intros Hy. induction x as [|c x IH]; simpl; [reflexivity|].
  rewrite lastLineLength_cons, newlines_app.
  destruct (chr_eqb c NL); [exact IH|].
  destruct (Nat.eqb_spec (newlines x + newlines y) 0); [lia | exact IH].
Qed.

Lemma lastLineLength_app (x y : list ascii) :
  lastLineLength (x ++ y)
  = if (newlines y =? 0)%nat then (lastLineLength x + length y)%nat
    else lastLineLength y.
Proof.
  destruct (Nat.eqb_spec (newlines y) 0) as [H0|Hpos].
  - now apply lastLineLength_app_plain.
  - apply lastLineLength_app_newline. lia.
Qed.

Lemma take_split (s : list ascii) (b o : nat) :
  (b <= o)%nat -> take o s = take b s ++ take (o - b) (drop b s).
Proof.
  intros Hbo. rewrite take_take_drop. f_equal. lia.
Qed.

End TextProps.

(** * Properties of the text document *)

Module DocumentProps.

Import TextDocument Spec TextProps.

Lemma lineTextAt_nat (content : list ascii) (l : nat) :
  lineTextAt content (Z.of_nat l) = lineText content l.
Proof.
  unfold lineTextAt, lineText, lines.
  destruct (Z.ltb_spec (Z.of_nat l) 0); [lia|]. now rewrite Nat2Z.id.
Qed.

(** *** [positionAt] *)

Lemma positionAt_from_spec (ls : list (list ascii)) :
  Forall (fun l => NL ∉ l) ls ->
  ls <> [] ->
  forall i o : nat,
    (o <= length (joinLines ls))%nat ->
    positionAt_from ls i o
    = Some (mkPosition (Z.of_nat (i + newlines (take o (joinLines ls))))
              (Z.of_nat (lastLineLength (take o (joinLines ls))))).
Proof.
  induction 1 as [|l ls Hl Hls IH]; [congruence|]. intros _ i o Ho.
  assert (Hprefix : forall k, newlines (take k l) = 0%nat).
  { intros k. apply newlines_not_elem. intros Hin. apply Hl.
    eapply subseteq_take, Hin. }
  assert (Hhere : (o <= length l)%nat ->
                  Some (mkPosition (Z.of_nat i) (Z.of_nat o))
                  = Some (mkPosition (Z.of_nat (i + newlines (take o l)))
                            (Z.of_nat (lastLineLength (take o l))))).
  { intros Hle. rewrite Hprefix, Nat.add_0_r.
    rewrite lastLineLength_plain by apply Hprefix.
    now rewrite length_take_le by exact Hle. }
  destruct ls as [|l' ls].
  - simpl in *. apply Nat.leb_le in Ho as Hb. rewrite Hb. now apply Hhere.
  - remember (l' :: ls) as rest eqn:Erest.
    assert (Hne : rest <> []) by (subst rest; discriminate). clear Erest.
    rewrite joinLines_cons in * by exact Hne. simpl positionAt_from.
    destruct (Nat.leb_spec o (length l)) as [Hle|Hgt].
    + rewrite take_app_le by exact Hle. now apply Hhere.
    + rewrite length_app in Ho.
      change (length (NL :: joinLines rest))
        with (S (length (joinLines rest))) in Ho.
      rewrite (IH Hne (S i) (o - (length l + 1))%nat) by lia.
      rewrite take_app_ge by lia.
      replace (o - length l)%nat with (S (o - (length l + 1))) by lia.
      simpl take.
      rewrite newlines_app, newlines_cons, (newlines_not_elem l Hl).
      rewrite lastLineLength_app_newline
        by (rewrite newlines_cons;
            replace (chr_eqb NL NL) with true by (symmetry; now apply chr_eqb_eq);
            lia).
      rewrite lastLineLength_cons.
      replace (chr_eqb NL NL) with true by (symmetry; now apply chr_eqb_eq).
      do 3 f_equal. lia.
Qed.

(** [positionAt] puts an offset on the line numbered by the newlines
    before it, at the column that is the length of what precedes it on
    that line. *)
Lemma positionAt_spec (content : list ascii) (o : nat) :
  (o <= length content)%nat ->
  positionAt content o
  = mkPosition (Z.of_nat (lineOfOffset content o))
      (Z.of_nat (lastLineLength (take o content))).
Proof.
  intros Ho. unfold positionAt, lines, lineOfOffset.
  rewrite (positionAt_from_spec (splitLines content)
             (splitLines_no_newline content) (splitLines_nonempty content) 0 o)
    by now rewrite joinLines_splitLines.
  now rewrite joinLines_splitLines.
Qed.

Lemma positionAt_line (content : list ascii) (o : nat) :
  (o <= length content)%nat ->
  line (positionAt content o) = Z.of_nat (lineOfOffset content o).
Proof. intros Ho. now rewrite positionAt_spec. Qed.

Lemma lineOfOffset_mono (content : list ascii) (a b : nat) :
  (a <= b)%nat -> (lineOfOffset content a <= lineOfOffset content b)%nat.
Proof.
  intros Hab. unfold lineOfOffset.
  replace b with (a + (b - a))%nat by lia.
  rewrite <- take_take_drop, newlines_app. lia.
Qed.

Lemma lineOfOffset_lt_lineCount (content : list ascii) (o : nat) :
  (lineOfOffset content o < length (splitLines content))%nat.
Proof.
  rewrite splitLines_length. unfold lineOfOffset.
  rewrite <- (take_drop o content) at 2. rewrite newlines_app. lia.
Qed.

(** An offset just past a character that is not a newline is on the line
    of that character. *)
Lemma lineOfOffset_after (content : list ascii) (i : nat) (c : ascii) :
  content !! i = Some c -> c <> NL ->
  lineOfOffset content (S i) = lineOfOffset content i.
Proof.
  intros Hc Hne. unfold lineOfOffset.
  rewrite (take_S_r _ _ _ Hc), newlines_app, newlines_cons.
  apply chr_eqb_neq in Hne. rewrite Hne. unfold newlines. simpl. lia.
Qed.

(** *** [offsetAt] and [getText] on whole lines *)

Lemma offsetAt_line_start (content : list ascii) (l : nat) :
  offsetAt content (mkPosition (Z.of_nat l) 0)
  = Z.of_nat (lengthsPlusOne (take l (splitLines content))).
Proof. unfold offsetAt, lines. simpl. rewrite Nat2Z.id. lia. Qed.

Lemma offsetAt_line_end (content : list ascii) (l : nat) :
  offsetAt content
    (mkPosition (Z.of_nat l) (Z.of_nat (length (lineText content l))))
  = Z.of_nat (lengthsPlusOne (take l (splitLines content))
              + length (lineText content l)).
Proof.
  unfold offsetAt, lines. simpl. rewrite Nat2Z.id, lineTextAt_nat. lia.
Qed.

Lemma slice_inside (s : list ascii) (a b : nat) :
  (a <= b)%nat -> (b <= length s)%nat ->
  slice s (Z.of_nat a) (Z.of_nat b) = drop a (take b s).
Proof.
  intros Hab Hb. unfold slice, sliceIndex.
  destruct (Z.ltb_spec (Z.of_nat a) 0); [lia|].
  destruct (Z.ltb_spec (Z.of_nat b) 0); [lia|].
  rewrite !Z.min_l by lia.
  rewrite Nat2Z.id. replace (Z.to_nat (Z.of_nat b - Z.of_nat a)) with (b - a)%nat by lia.
  rewrite take_drop_commute. f_equal. f_equal. lia.
Qed.

(** The text between the start of line [first] and the end of line
    [last] is those lines joined by newlines. *)
Lemma getText_lines (content : list ascii) (first last : nat) :
  (first <= last)%nat ->
  (last < length (splitLines content))%nat ->
  getText content
    (Range4 (Z.of_nat first) 0 (Z.of_nat last)
       (Z.of_nat (length (lineText content last))))
  = linesBetween content first last.
Proof.
  intros Hfl Hlast. unfold getText, Range4, linesBetween. simpl start. simpl end_.
  rewrite offsetAt_line_start, offsetAt_line_end.
  set (ls := splitLines content) in *.
  assert (Hlook : ls !! last = Some (lineText content last)).
  { unfold lineText. fold ls. destruct (ls !! last) eqn:E; [reflexivity|].
    apply lookup_ge_None in E. lia. }
  assert (Hne : ls <> []) by apply splitLines_nonempty.
  assert (Hlen : lengthsPlusOne ls = S (length content)).
  { rewrite (lengthsPlusOne_joinLines ls Hne). unfold ls.
    now rewrite joinLines_splitLines. }
  assert (Hend : (lengthsPlusOne (take last ls) + length (lineText content last) + 1
                  = lengthsPlusOne (take (S last) ls))%nat).
  { rewrite (take_S_r _ _ _ Hlook), lengthsPlusOne_app. simpl. lia. }
  pose proof (lengthsPlusOne_take_le ls (S last)) as Hle.
  assert (Hstart : (lengthsPlusOne (take first ls) <= lengthsPlusOne (take last ls))%nat).
  { replace (take first ls) with (take first (take last ls))
      by (rewrite take_take; f_equal; lia).
    apply lengthsPlusOne_take_le. }
  rewrite slice_inside by lia.
  pose proof (joinLines_splitLines content) as Hjoin. fold ls in Hjoin.
  transitivity
    (drop (lengthsPlusOne (take first ls))
       (take (lengthsPlusOne (take last ls) + length (lineText content last))
          (joinLines ls))); [now rewrite Hjoin|].
  rewrite (take_joinLines ls last _ Hlook).
  replace (take first ls) with (take first (take (S last) ls))
    by (rewrite take_take; f_equal; lia).
  apply drop_joinLines. rewrite length_take. lia.
Qed.

End DocumentProps.

(** * Properties of the tracker *)

Module TrackerProps.

Import InsertionTracker Spec TextProps DocumentProps.
Local Open Scope Z_scope.

Lemma addedLineCount_newlines (s : list ascii) :
  addedLineCount s = Z.of_nat (newlines s).
Proof. unfold addedLineCount. rewrite splitLines_length. lia. Qed.

Lemma lineDelta_spec (change : ContentChange.t) :
  lineDelta change = specLineDelta change.
Proof.
  unfold lineDelta, specLineDelta, removedLineCount.
  now rewrite addedLineCount_newlines.
Qed.

Lemma lastNewLineLength_nonneg (s : list ascii) : 0 <= lastNewLineLength s.
Proof. unfold lastNewLineLength. lia. Qed.

(** Unfolds [shiftRange] and its guards and turns every boolean comparison
    into the order fact it decides. *)
Ltac shift_cases :=
  unfold shiftRange, changeAfter, changeBefore, changeAbuts, isAfter,
    shiftedLines, clampedLines, translate in *;
  rewrite ?Z.gtb_ltb, ?Z.geb_leb in *;
  repeat match goal with
         | |- context [Z.ltb ?a ?b] => destruct (Z.ltb_spec a b)
         | |- context [Z.leb ?a ?b] => destruct (Z.leb_spec a b)
         | |- context [Z.eqb ?a ?b] => destruct (Z.eqb_spec a b)
         | H : context [Z.ltb ?a ?b] |- _ => destruct (Z.ltb_spec a b)
         | H : context [Z.leb ?a ?b] |- _ => destruct (Z.leb_spec a b)
         | H : context [Z.eqb ?a ?b] |- _ => destruct (Z.eqb_spec a b)
         end;
  simpl in *; rewrite ?Z.add_0_r in *.

(** *** [track] *)

(** C1, as the code has it: [track] on an id that is already tracked
    returns normally; the entry stored under the id is replaced by the new
    one, every other entry is kept and [activeCount] does not change. *)
Theorem track_tracked_id_overwrites
    (pending : gmap string PendingInsertion.t) (id uri : string) (range : Range) :
  is_Some (pending !! id) ->
  exists pending',
    track id uri range pending = Returned pending'
    /\ pending' !! id = Some (PendingInsertion.mk id uri range)
    /\ (forall other, other <> id -> pending' !! other = pending !! other)
    /\ activeCount pending' = activeCount pending.
Proof.
  intros [old Hold]. eexists. split; [reflexivity|]. split; [|split].
  - apply lookup_insert_eq.
  - intros other Hne. now apply lookup_insert_ne.
  - unfold activeCount. apply map_size_insert_Some. eauto.
Qed.

Lemma track_tracked_id_overwrites_witness :
  exists pending',
    track "r1" "d" (Range4 7 0 7 2)
      (<["r1" := PendingInsertion.mk "r1" "d" (Range4 1 0 1 5)]> ∅)
    = Returned pending'
    /\ pending' !! "r1"%string = Some (PendingInsertion.mk "r1" "d" (Range4 7 0 7 2))
    /\ (forall other, other <> "r1"%string ->
        pending' !! other
        = (<["r1"%string := PendingInsertion.mk "r1" "d" (Range4 1 0 1 5)]> ∅
             : gmap string PendingInsertion.t) !! other)
    /\ activeCount pending'
       = activeCount (<["r1" := PendingInsertion.mk "r1" "d" (Range4 1 0 1 5)]> ∅).
Proof.
  apply (track_tracked_id_overwrites _ "r1" "d" (Range4 7 0 7 2)).
  rewrite lookup_insert_eq. eexists. reflexivity.
Defined.

(** C1, as the specification states it, fails: tracking ["r1"] a second
    time while the first entry is still there is not an error; the call
    returns and one entry, the second, is tracked. *)
Lemma track_same_id_twice_is_accepted :
  (exists pending1 pending2,
      track "r1" "d" (Range4 1 0 1 5) ∅ = Returned pending1
      /\ is_Some (pending1 !! "r1"%string)
      /\ track "r1" "d" (Range4 7 0 7 2) pending1 = Returned pending2
      /\ pending2 !! "r1"%string
         = Some (PendingInsertion.mk "r1" "d" (Range4 7 0 7 2))
      /\ activeCount pending2 = 1%nat)
  /\ ~ (forall (pending : gmap string PendingInsertion.t) (id uri : string)
               (range : Range),
           is_Some (pending !! id) -> track id uri range pending = Thrown).
Proof.
  split.
  - do 2 eexists. split; [reflexivity|]. split.
    { rewrite lookup_insert_eq. eexists. reflexivity. }
    split; [reflexivity|]. split.
    + apply lookup_insert_eq.
    + unfold activeCount. rewrite insert_insert_eq, insert_empty.
      apply map_size_singleton.
  - intros Hclaim.
    specialize (Hclaim (<["r1" := PendingInsertion.mk "r1" "d" (Range4 1 0 1 5)]> ∅)
                  "r1" "d" (Range4 7 0 7 2)).
    rewrite lookup_insert_eq in Hclaim.
    specialize (Hclaim ltac:(eexists; reflexivity)). discriminate.
Qed.

(** *** [shiftRange] *)

Lemma changeAfter_iff (r : Range) (change : ContentChange.t) :
  changeAfter r change = true <-> startsAtOrAfterEnd r change.
Proof.
  unfold startsAtOrAfterEnd, pos_le. split; intros H; shift_cases; try lia;
    try discriminate; try reflexivity.
Qed.

(** C2: a change whose replaced range ends on a line strictly before the
    start line of the tracked range moves both endpoints by the line delta
    (newlines inserted minus lines replaced) and keeps both columns; and the
    scenario: ["r1"] tracked at (10,0)-(12,5), two newline-terminated lines
    inserted at (2,0), gives (12,0)-(14,5). *)
Theorem shiftRange_change_on_earlier_line :
  (forall (r : Range) (change : ContentChange.t),
      pos_le (start r) (end_ r) ->
      pos_le (start (ContentChange.range change)) (end_ (ContentChange.range change)) ->
      line (end_ (ContentChange.range change)) < line (start r) ->
      shiftRange r change = shiftedLines r (specLineDelta change))
  /\ (exists pending,
         track "r1" "d" (Range4 10 0 12 5) ∅ = Returned pending
         /\ PendingInsertion.range
              <$> adjustForChanges
                    (mkChangeEvent "d" [ContentChange.mk (Range4 2 0 2 0) twoLines])
                    pending !! "r1"%string
            = Some (Range4 12 0 14 5)).
Proof.
  split.
  - intros r change Hr Hc Hlt. rewrite <- lineDelta_spec.
    unfold pos_le in *. shift_cases; try lia; reflexivity.
  - eexists. split; [reflexivity|].
    unfold adjustForChanges. rewrite lookup_fmap, lookup_insert_eq. reflexivity.
Qed.

Lemma shiftRange_change_on_earlier_line_witness :
  shiftRange (Range4 10 0 12 5) (ContentChange.mk (Range4 2 0 2 0) twoLines)
  = shiftedLines (Range4 10 0 12 5)
      (specLineDelta (ContentChange.mk (Range4 2 0 2 0) twoLines)).
Proof.
  apply (proj1 shiftRange_change_on_earlier_line);
    unfold pos_le; simpl; lia.
Defined.

(** C3, as the code has it: when the replaced range ends on the start line
    of the tracked range, at or before its start column, and the change does
    not start at or after the end of the tracked range, the start moves to
    the end of the inserted text plus its former distance from the end of
    the replaced range; the end line moves by the line delta; the end
    column moves by the same column delta if the range is on one line and
    is kept otherwise. *)
Theorem shiftRange_change_abutting_start (r : Range) (change : ContentChange.t) :
  ~ startsAtOrAfterEnd r change ->
  line (end_ (ContentChange.range change)) = line (start r) ->
  character (end_ (ContentChange.range change)) <= character (start r) ->
  shiftRange r change
  = mkRange
      (mkPosition (line (start r) + specLineDelta change)
                  (character (start r) + columnDelta change))
      (mkPosition (line (end_ r) + specLineDelta change)
                  (if line (start r) =? line (end_ r)
                   then character (end_ r) + columnDelta change
                   else character (end_ r)))
  /\ start (shiftRange r change)
     = mkPosition (line (insertedEnd change))
         (character (insertedEnd change)
          + (character (start r) - character (end_ (ContentChange.range change)))).
Proof.
  intros Hnot Hline Hcol.
  assert (Hafter : changeAfter r change = false).
  { destruct (changeAfter r change) eqn:E; [|reflexivity].
    apply changeAfter_iff in E. contradiction. }
  assert (Hbefore : changeBefore r change = false).
  { unfold changeBefore. apply Z.ltb_ge. lia. }
  assert (Habuts : changeAbuts r change = true).
  { unfold changeAbuts. rewrite Hline, Z.eqb_refl. apply Z.leb_le. lia. }
  unfold shiftRange. rewrite Hafter, Hbefore, Habuts.
  rewrite lineDelta_spec. unfold columnDelta, insertedEnd, specLineDelta.
  rewrite addedLineCount_newlines. simpl.
  destruct (newlines (ContentChange.text change)) as [|n] eqn:En; simpl.
  - destruct (line (start r) =? line (end_ r));
      (split; [f_equal; f_equal; lia | f_equal; lia]).
  - replace (Z.pos (Pos.of_succ_nat n) =? 0) with false
      by (symmetry; apply Z.eqb_neq; lia).
    destruct (line (start r) =? line (end_ r));
      (split; [f_equal; f_equal; lia | f_equal; lia]).
Qed.

Lemma shiftRange_change_abutting_start_witness :
  shiftRange (Range4 5 8 5 12) (ContentChange.mk (Range4 5 2 5 4) (txt "abc"))
  = Range4 5 9 5 13
  /\ start (shiftRange (Range4 5 8 5 12) (ContentChange.mk (Range4 5 2 5 4) (txt "abc")))
     = mkPosition 5 9.
Proof.
  apply (shiftRange_change_abutting_start
           (Range4 5 8 5 12) (ContentChange.mk (Range4 5 2 5 4) (txt "abc")));
    unfold startsAtOrAfterEnd, pos_le; simpl; lia.
Defined.

(** C3, as the specification states it, fails: text typed exactly at an
    empty tracked range ends on its start line at its start column, yet
    the range is returned as it was, its start column not recomputed. *)
Lemma shiftRange_insert_at_empty_range_is_unchanged :
  (let r := Range4 5 3 5 3 in
   let change := ContentChange.mk (Range4 5 3 5 3) (txt "ab") in
   range_wf r /\ range_wf (ContentChange.range change)
   /\ line (end_ (ContentChange.range change)) = line (start r)
   /\ character (end_ (ContentChange.range change)) <= character (start r)
   /\ columnDelta change = 2
   /\ shiftRange r change = r)
  /\ ~ (forall (r : Range) (change : ContentChange.t),
           range_wf r -> range_wf (ContentChange.range change) ->
           line (end_ (ContentChange.range change)) = line (start r) ->
           character (end_ (ContentChange.range change)) <= character (start r) ->
           character (start (shiftRange r change))
           = character (start r) + columnDelta change).
Proof.
  split.
  - unfold range_wf, pos_nonneg, pos_le. simpl. repeat split; lia.
  - intros Hclaim.
    specialize (Hclaim (Range4 5 3 5 3)
                  (ContentChange.mk (Range4 5 3 5 3) (txt "ab"))).
    unfold range_wf, pos_nonneg, pos_le in Hclaim. simpl in Hclaim.
    specialize (Hclaim ltac:(lia) ltac:(lia) ltac:(lia) ltac:(lia)).
    discriminate.
Qed.

(** For well-formed ranges the first case takes a change away from the
    abutting case only when all four positions coincide: an empty
    replaced range at an empty tracked range. *)
Lemma abutting_and_after_same_point (r : Range) (change : ContentChange.t) :
  pos_le (start r) (end_ r) ->
  pos_le (start (ContentChange.range change)) (end_ (ContentChange.range change)) ->
  changeAbuts r change = true ->
  changeAfter r change = true ->
  start (ContentChange.range change) = end_ (ContentChange.range change)
  /\ end_ (ContentChange.range change) = start r /\ start r = end_ r.
Proof.
  intros Hr Hc Hab Haf. unfold pos_le in *.
  destruct r as [[rsl rsc] [rel rec]].
  destruct change as [[[csl csc] [cel cec]] t].
  shift_cases; try discriminate; try lia;
    repeat split; f_equal; lia.
Qed.

(** C4: a change whose replaced range starts strictly after the end of the
    tracked range (by line, then column) leaves the range as it is. *)
Theorem shiftRange_change_after (r : Range) (change : ContentChange.t) :
  isAfter (start (ContentChange.range change)) (end_ r) = true ->
  shiftRange r change = r.
Proof.
  intros H. shift_cases; try reflexivity; try discriminate; lia.
Qed.

Lemma shiftRange_change_after_witness :
  shiftRange (Range4 5 0 5 10) (ContentChange.mk (Range4 10 0 10 5) (txt "new text"))
  = Range4 5 0 5 10.
Proof.
  apply (shiftRange_change_after
           (Range4 5 0 5 10) (ContentChange.mk (Range4 10 0 10 5) (txt "new text"))).
  reflexivity.
Defined.

(** [adjustForChanges] assigns the [range] field of entries; it adds and
    removes none. *)
Lemma adjustForChanges_lookup (e : ChangeEvent)
    (pending : gmap string PendingInsertion.t) (id : string) :
  adjustForChanges e pending !! id = adjustEntry e <$> pending !! id.
Proof. unfold adjustForChanges. apply lookup_fmap. Qed.

Lemma adjustForChanges_dom (e : ChangeEvent)
    (pending : gmap string PendingInsertion.t) :
  dom (adjustForChanges e pending) = dom pending.
Proof. unfold adjustForChanges. apply dom_fmap_L. Qed.

Lemma adjustForChanges_activeCount (e : ChangeEvent)
    (pending : gmap string PendingInsertion.t) :
  activeCount (adjustForChanges e pending) = activeCount pending.
Proof. unfold activeCount, adjustForChanges. apply map_size_fmap. Qed.

(** C5, as the code has it: when none of the three earlier cases applies,
    both endpoint lines move by the line delta but not above line 0, and
    both columns are kept; the entry of a pending insertion hit by such a
    change stays in the map under its id with that range, and the set of
    tracked ids is the same after the event. *)
Theorem shiftRange_overlap_best_effort (r : Range) (change : ContentChange.t) :
  overlaps r change ->
  shiftRange r change = clampedLines r (specLineDelta change)
  /\ forall (pending : gmap string PendingInsertion.t) (id : string)
            (entry : PendingInsertion.t),
       pending !! id = Some entry ->
       PendingInsertion.range entry = r ->
       let e := mkChangeEvent (PendingInsertion.uri entry) [change] in
       adjustForChanges e pending !! id
       = Some (PendingInsertion.mk (PendingInsertion.id entry)
                 (PendingInsertion.uri entry)
                 (clampedLines r (specLineDelta change)))
       /\ dom (adjustForChanges e pending) = dom pending.
Proof.
  intros (Hafter & Hbefore & Habuts).
  assert (Hshift : shiftRange r change = clampedLines r (specLineDelta change)).
  { unfold shiftRange. rewrite Hafter, Hbefore, Habuts, lineDelta_spec.
    reflexivity. }
  split; [exact Hshift|].
  intros pending id entry Hlook Hrange e. split.
  - rewrite adjustForChanges_lookup, Hlook. simpl. unfold adjustEntry, e. simpl.
    destruct (decide _) as [_|Hne]; [|contradiction].
    unfold shiftThrough. simpl. now rewrite Hrange, Hshift.
  - apply adjustForChanges_dom.
Qed.

Lemma shiftRange_overlap_best_effort_witness :
  shiftRange (Range4 5 0 7 10) (ContentChange.mk (Range4 6 1 6 4) [NL])
  = clampedLines (Range4 5 0 7 10)
      (specLineDelta (ContentChange.mk (Range4 6 1 6 4) [NL])).
Proof.
  apply (shiftRange_overlap_best_effort
           (Range4 5 0 7 10) (ContentChange.mk (Range4 6 1 6 4) [NL])).
  repeat split; reflexivity.
Defined.

(** C5, as the specification states it, fails: deleting lines 0 to 8
    overlaps a range on line 5 and has line delta -8; the start line
    becomes 0, not 5 - 8. *)
Lemma shiftRange_overlap_does_not_translate :
  (let r := Range4 5 0 5 10 in
   let change := ContentChange.mk (Range4 0 0 8 0) [] in
   range_wf r /\ range_wf (ContentChange.range change)
   /\ overlaps r change
   /\ specLineDelta change = -8
   /\ shiftRange r change = Range4 0 0 0 10)
  /\ ~ (forall (r : Range) (change : ContentChange.t),
           range_wf r -> range_wf (ContentChange.range change) ->
           overlaps r change ->
           shiftRange r change = shiftedLines r (specLineDelta change)).
Proof.
  split.
  - unfold range_wf, pos_nonneg, pos_le, overlaps. simpl.
    repeat split; try lia; discriminate.
  - intros Hclaim.
    specialize (Hclaim (Range4 5 0 5 10) (ContentChange.mk (Range4 0 0 8 0) [])).
    unfold range_wf, pos_nonneg, pos_le, overlaps in Hclaim. simpl in Hclaim.
    specialize (Hclaim ltac:(lia) ltac:(lia) ltac:(repeat split; reflexivity)).
    discriminate.
Qed.

(** C10: one step of rebasing keeps well-formed input inside the
    document: from a range and a replaced range with non-negative
    coordinates and start at or before end, all four coordinates of the
    result are non-negative; in the overlap case the two lines are
    [max 0] of the translated lines. *)
Theorem shiftRange_nonnegative (r : Range) (change : ContentChange.t) :
  range_wf r ->
  range_wf (ContentChange.range change) ->
  pos_nonneg (start (shiftRange r change))
  /\ pos_nonneg (end_ (shiftRange r change))
  /\ (overlaps r change ->
      line (start (shiftRange r change))
      = Z.max 0 (line (start r) + specLineDelta change)
      /\ line (end_ (shiftRange r change))
         = Z.max 0 (line (end_ r) + specLineDelta change)).
Proof.
  intros Hr Hc. rewrite <- lineDelta_spec.
  pose proof (lastNewLineLength_nonneg (ContentChange.text change)) as Hlast.
  pose proof (addedLineCount_newlines (ContentChange.text change)) as Hadd.
  assert (Hadd0 : 0 <= addedLineCount (ContentChange.text change)) by lia.
  clear Hadd.
  unfold overlaps, range_wf, pos_nonneg, pos_le in *.
  destruct r as [[rsl rsc] [rel rec]].
  destruct change as [[[csl csc] [cel cec]] t].
  unfold shiftRange, changeAfter, changeBefore, changeAbuts, lineDelta,
    removedLineCount in *. simpl in *.
  generalize dependent (addedLineCount t). intros added Hadd0.
  generalize dependent (lastNewLineLength t). intros lastLen Hlast.
  rewrite ?Z.gtb_ltb, ?Z.geb_leb.
  repeat match goal with
         | |- context [Z.ltb ?a ?b] => destruct (Z.ltb_spec a b)
         | |- context [Z.leb ?a ?b] => destruct (Z.leb_spec a b)
         | |- context [Z.eqb ?a ?b] => destruct (Z.eqb_spec a b)
         end; simpl; repeat split; intros; try lia;
    repeat match goal with H : _ /\ _ |- _ => destruct H end;
    try discriminate; try lia.
Qed.

Lemma shiftRange_nonnegative_witness :
  let r := Range4 5 0 5 10 in
  let change := ContentChange.mk (Range4 0 0 8 0) [] in
  pos_nonneg (start (shiftRange r change))
  /\ pos_nonneg (end_ (shiftRange r change))
  /\ (overlaps r change ->
      line (start (shiftRange r change))
      = Z.max 0 (line (start r) + specLineDelta change)
      /\ line (end_ (shiftRange r change))
         = Z.max 0 (line (end_ r) + specLineDelta change)).
Proof.
  apply (shiftRange_nonnegative
           (Range4 5 0 5 10) (ContentChange.mk (Range4 0 0 8 0) []));
    unfold range_wf, pos_nonneg, pos_le; simpl; lia.
Defined.

(** *** [applyResult] *)

Lemma find_existsb {A : Type} (f : A -> bool) (l : list A) :
  existsb f l = match List.find f l with Some _ => true | None => false end.
Proof.
  induction l as [|x l IH]; simpl; [reflexivity|].
  destruct (f x); [reflexivity | exact IH].
Qed.

Section ApplyResult.

(** The host the extension runs in, and what happens to the map while a
    call of [applyResult] is suspended. *)
Context (host : Host).
Context (whileAwaiting : gmap string PendingInsertion.t ->
                         gmap string PendingInsertion.t).

(** What the first turn of [applyResult] does for a tracked id. *)
Lemma applyResult_begin_present (id : string) (newText : list ascii)
    (pending : gmap string PendingInsertion.t) (entry : PendingInsertion.t) :
  pending !! id = Some entry ->
  (targetAvailable host (PendingInsertion.uri entry) = false
   /\ applyResult_begin host id newText pending = Finished false (delete id pending))
  \/ (targetAvailable host (PendingInsertion.uri entry) = true
      /\ exists editor,
           In editor (visibleTextEditors host)
           /\ documentUri editor = uriToString host (PendingInsertion.uri entry)
           /\ applyResult_begin host id newText pending
              = AwaitEdit editor (PendingInsertion.range entry) newText).
Proof.
  intros Hlook. unfold applyResult_begin, targetAvailable. rewrite Hlook.
  rewrite !find_existsb.
  destruct (List.find _ (textDocuments host)) as [doc|]; simpl; [|now left].
  destruct (List.find _ (visibleTextEditors host)) as [editor|] eqn:Hed;
    [|now left].
  right. split; [reflexivity|]. exists editor.
  apply find_some in Hed as [Hin Heq]. apply String.eqb_eq in Heq.
  repeat split; assumption.
Qed.

(** The endings of [applyResult].  For an id that is not tracked it
    answers [false] and changes nothing.  For a tracked id: if the
    document or its editor is missing the answer is [false], nothing is
    written and the id is removed; otherwise the write asked of the editor
    of that document replaces the range the entry holds at that moment
    with the new text, and when the write resolves the answer is the
    editor's and the id is removed, while a rejected write rejects the
    call and removes nothing.  Whenever the call returns, with [true] or
    [false], the id is not tracked afterwards.  For an entry tracked at
    [range0] and rebased by an event since, the range written is the
    rebased one. *)
Theorem applyResult_endings
    (id : string) (newText : list ascii)
    (pending : gmap string PendingInsertion.t) :
  (pending !! id = None ->
   applyResult host whileAwaiting id newText pending = (Returned false, pending))
  /\ (forall entry, pending !! id = Some entry ->
      (targetAvailable host (PendingInsertion.uri entry) = false ->
       applyResult host whileAwaiting id newText pending
       = (Returned false, delete id pending))
      /\ (targetAvailable host (PendingInsertion.uri entry) = true ->
          exists editor,
            documentUri editor = uriToString host (PendingInsertion.uri entry)
            /\ applyResult_begin host id newText pending
               = AwaitEdit editor (PendingInsertion.range entry) newText
            /\ applyResult host whileAwaiting id newText pending
               = match edit host editor (PendingInsertion.range entry) newText with
                 | EditResolved success =>
                     (Returned success, delete id (whileAwaiting pending))
                 | EditRejected => (Thrown, whileAwaiting pending)
                 end)
      /\ (forall result pending',
            applyResult host whileAwaiting id newText pending
            = (Returned result, pending') ->
            pending' !! id = None))
  /\ (forall uri range0 changes pending0 tracked,
      track id uri range0 pending0 = Returned tracked ->
      pending = adjustForChanges (mkChangeEvent uri changes) tracked ->
      targetAvailable host uri = true ->
      exists editor,
        applyResult_begin host id newText pending
        = AwaitEdit editor (shiftThrough changes range0) newText).
Proof.
  split; [|split].
  - intros Hnone. unfold applyResult, applyResult_begin. now rewrite Hnone.
  - intros entry Hlook. unfold applyResult.
    destruct (applyResult_begin_present id newText pending entry Hlook)
      as [[Hav Hbegin]|[Hav (editor & _ & Huri & Hbegin)]];
      rewrite Hbegin, Hav; simpl.
    + split; [reflexivity|]. split; [discriminate|].
      intros result pending' [= _ <-]. apply lookup_delete_eq.
    + split; [discriminate|]. split.
      * intros _. exists editor. split; [exact Huri|]. split; [reflexivity|].
        now destruct (edit host editor (PendingInsertion.range entry) newText).
      * intros result pending'.
        destruct (edit host editor (PendingInsertion.range entry) newText);
          simpl; [|discriminate].
        intros [= _ <-]. apply lookup_delete_eq.
  - intros uri range0 changes pending0 tracked Htrack -> Havail.
    injection Htrack as <-.
    set (rebased := PendingInsertion.mk id uri (shiftThrough changes range0)).
    assert (Hlook : adjustForChanges (mkChangeEvent uri changes)
                      (<[id := PendingInsertion.mk id uri range0]> pending0) !! id
                    = Some rebased).
    { rewrite adjustForChanges_lookup, lookup_insert_eq. simpl.
      unfold adjustEntry. simpl.
      destruct (decide (uri = uri)) as [_|Hne]; [reflexivity | contradiction]. }
    destruct (applyResult_begin_present id newText _ rebased Hlook)
      as [[Hav _]|[_ (editor & _ & _ & Hbegin)]].
    + simpl in Hav. congruence.
    + exists editor. exact Hbegin.
Qed.

End ApplyResult.

Lemma applyResult_endings_witness :
  exists editor,
    applyResult_begin demoHost "r1" (txt "x")
      (adjustForChanges
         (mkChangeEvent "d" [ContentChange.mk (Range4 2 0 2 0) twoLines])
         (<["r1" := PendingInsertion.mk "r1" "d" (Range4 10 0 12 5)]> ∅))
    = AwaitEdit editor
        (shiftThrough [ContentChange.mk (Range4 2 0 2 0) twoLines]
           (Range4 10 0 12 5))
        (txt "x").
Proof.
  apply (proj2 (proj2 (applyResult_endings
                         demoHost (fun m => m) "r1" (txt "x") _))
           "d" (Range4 10 0 12 5)
           [ContentChange.mk (Range4 2 0 2 0) twoLines] ∅
           (<["r1" := PendingInsertion.mk "r1" "d" (Range4 10 0 12 5)]> ∅));
    reflexivity.
Defined.

(** C6 fails on the code where the write itself is rejected.  The entry
    ["r1"] is tracked, its document is open and shown in an editor, and
    [editor.edit] is rejected: [applyResult] is left at the [await], its
    call is rejected, and ["r1"] is still tracked, with its range, and
    counted.  With the same tracker and an editor whose write resolves to
    [false], and with the document not open at all, the id is removed. *)
Theorem applyResult_rejected_edit_keeps_id :
  let entry := PendingInsertion.mk "r1" "d" (Range4 5 0 5 10) in
  let pending : gmap string PendingInsertion.t := <["r1" := entry]> ∅ in
  let failingHost :=
    mkHost ["d"%string] [mkTextEditor 0 "d"] (fun s => s)
      (fun _ _ _ => EditResolved false) in
  let closedHost :=
    mkHost [] [] (fun s => s) (fun _ _ _ => EditRejected) in
  targetAvailable rejectingHost "d" = true
  /\ applyResult rejectingHost (fun m => m) "r1" (txt "x") pending
     = (Thrown, pending)
  /\ (applyResult rejectingHost (fun m => m) "r1" (txt "x") pending).2 !! "r1"%string
     = Some entry
  /\ activeCount (applyResult rejectingHost (fun m => m) "r1" (txt "x") pending).2
     = 1%nat
  /\ applyResult failingHost (fun m => m) "r1" (txt "x") pending
     = (Returned false, ∅)
  /\ applyResult closedHost (fun m => m) "r1" (txt "x") pending
     = (Returned false, ∅).
Proof.
  cbv zeta.
  assert (Hrej : applyResult rejectingHost (fun m => m) "r1" (txt "x")
                   (<["r1" := PendingInsertion.mk "r1" "d" (Range4 5 0 5 10)]> ∅)
                 = (Thrown,
                    <["r1" := PendingInsertion.mk "r1" "d" (Range4 5 0 5 10)]> ∅)).
  { unfold applyResult, applyResult_begin. now rewrite lookup_insert_eq. }
  split; [reflexivity|]. split; [exact Hrej|]. rewrite Hrej. simpl.
  split; [apply lookup_insert_eq|]. split.
  - unfold activeCount. now rewrite insert_empty, map_size_singleton.
  - split.
    + unfold applyResult, applyResult_begin. rewrite lookup_insert_eq. simpl.
      now rewrite delete_insert_eq, delete_empty.
    + unfold applyResult, applyResult_begin. rewrite lookup_insert_eq. simpl.
      now rewrite delete_insert_eq, delete_empty.
Qed.

(** *** Rebasing against the document *)

Lemma take_replaceBetween (content newText : list ascii) (a b o : nat) :
  (a <= b)%nat -> (b <= o)%nat -> (o <= length content)%nat ->
  take (offsetAfterChange a b newText o) (replaceBetween content a b newText)
  = take a content ++ newText ++ take (o - b) (drop b content).
Proof.
  intros Hab Hbo Ho. unfold offsetAfterChange, replaceBetween.
  assert (Ha : length (take a content) = a) by (rewrite length_take; lia).
  rewrite take_app_ge by lia. f_equal.
  rewrite take_app_ge by lia. f_equal. f_equal. lia.
Qed.

Lemma drop_replaceBetween (content newText : list ascii) (a b o : nat) :
  (a <= b)%nat -> (b <= o)%nat -> (o <= length content)%nat ->
  drop (offsetAfterChange a b newText o) (replaceBetween content a b newText)
  = drop o content.
Proof.
  intros Hab Hbo Ho. unfold offsetAfterChange, replaceBetween.
  assert (Ha : length (take a content) = a) by (rewrite length_take; lia).
  rewrite drop_app_ge by lia. rewrite drop_app_ge by lia.
  rewrite drop_drop. f_equal. lia.
Qed.

Lemma length_replaceBetween (content newText : list ascii) (a b : nat) :
  (a <= b)%nat -> (b <= length content)%nat ->
  length (replaceBetween content a b newText)
  = (a + length newText + (length content - b))%nat.
Proof.
  intros Hab Hb. unfold replaceBetween.
  rewrite !length_app, length_take, length_drop. lia.
Qed.

(** Rebasing is exact for a change that lies before the tracked range.
    In a document [content], let the change replace the text between
    offsets [a] and [b] and let the range go from offset [o1] to offset
    [o2], with [b <= o1]; unless the change is an insertion at the very
    point of an empty range ([a = o2]), the rebased range is the range of
    the same characters in the new document. *)
Theorem shiftRange_exact_for_change_before
    (content newText : list ascii) (a b o1 o2 : nat) :
  (a <= b)%nat -> (b <= o1)%nat -> (o1 <= o2)%nat ->
  (o2 <= length content)%nat -> (a < o2)%nat ->
  let change :=
    ContentChange.mk
      (mkRange (TextDocument.positionAt content a)
               (TextDocument.positionAt content b))
      newText in
  let content' := replaceBetween content a b newText in
  let o1' := offsetAfterChange a b newText o1 in
  let o2' := offsetAfterChange a b newText o2 in
  shiftRange
    (mkRange (TextDocument.positionAt content o1)
             (TextDocument.positionAt content o2))
    change
  = mkRange (TextDocument.positionAt content' o1')
            (TextDocument.positionAt content' o2')
  /\ drop o1' content' = drop o1 content
  /\ take (o2' - o1') (drop o1' content') = take (o2 - o1) (drop o1 content).
Proof.
  intros Hab Hbo Hoo Hlen Hne change content' o1' o2'.
  assert (Hdrop : drop o1' content' = drop o1 content).
  { apply drop_replaceBetween; lia. }
  split; [|split; [exact Hdrop|]].
  2:{ rewrite Hdrop. f_equal. unfold o1', o2', offsetAfterChange. lia. }
  pose proof (length_replaceBetween content newText a b Hab ltac:(lia)) as Hlen'.
  fold content' in Hlen'.
  unfold change. clear change.
  rewrite !positionAt_spec
    by (unfold o1', o2', offsetAfterChange; lia).
  unfold lineOfOffset, o1', o2', content'.
  rewrite !take_replaceBetween by lia.
  set (X := take a content).
  set (M := take (b - a) (drop a content)).
  set (S1 := take (o1 - b) (drop b content)).
  set (S12 := take (o2 - o1) (drop o1 content)).
  assert (Eb : take b content = X ++ M) by (now apply take_split).
  assert (E1 : take o1 content = (X ++ M) ++ S1)
    by (rewrite <- Eb; now apply take_split).
  assert (E2 : take o2 content = ((X ++ M) ++ S1) ++ S12)
    by (rewrite <- E1; now apply take_split).
  assert (E2' : take (o2 - b) (drop b content) = S1 ++ S12).
  { rewrite (take_split (drop b content) (o1 - b) (o2 - b)) by lia.
    unfold S1, S12. rewrite drop_drop. do 2 f_equal; [lia|]. f_equal. lia. }
  rewrite Eb, E1, E2, E2'. fold S1.
  assert (LM : length M = (b - a)%nat)
    by (unfold M; rewrite length_take, length_drop; lia).
  assert (L1 : length S1 = (o1 - b)%nat)
    by (unfold S1; rewrite length_take, length_drop; lia).
  assert (L12 : length S12 = (o2 - o1)%nat)
    by (unfold S12; rewrite length_take, length_drop; lia).
  unfold shiftRange, changeAfter, changeBefore, changeAbuts, lineDelta,
    removedLineCount, translate. simpl.
  rewrite addedLineCount_newlines.
  change (lastNewLineLength newText) with (Z.of_nat (lastLineLength newText)).
  rewrite !newlines_app, !lastLineLength_app, !newlines_app, !length_app.
  pose proof (lastLineLength_plain newText) as HT.
  set (nT := newlines newText) in *. set (cT := lastLineLength newText) in *.
  set (lenT := length newText) in *.
  set (nX := newlines X). set (cX := lastLineLength X).
  set (nM := newlines M). set (cM := lastLineLength M).
  set (n1 := newlines S1). set (c1 := lastLineLength S1).
  set (n12 := newlines S12). set (c12 := lastLineLength S12).
  rewrite LM, L1, L12.
  clearbody nT cT lenT nX cX nM cM n1 c1 n12 c12.
  clear Hlen' Hdrop E2' E2 E1 Eb LM L1 L12.
  rewrite ?Z.gtb_ltb, ?Z.geb_leb.
  repeat match goal with
         | |- context [Nat.eqb ?x 0] => destruct (Nat.eqb_spec x 0)
         end;
  repeat (match goal with
          | |- context [Z.ltb ?x ?y] => destruct (Z.ltb_spec x y)
          | |- context [Z.leb ?x ?y] => destruct (Z.leb_spec x y)
          | |- context [Z.eqb ?x ?y] => destruct (Z.eqb_spec x y)
          end; try lia); simpl;
  try (assert (cT = lenT) by (apply HT; lia));
  f_equal; f_equal; lia.
Qed.

Lemma shiftRange_exact_for_change_before_witness :
  let content := txt "ab" ++ NL :: txt "cd" ++ NL :: txt "ef" in
  let newText := txt "X" ++ NL :: txt "Y" in
  shiftRange (Range4 1 0 1 2) (ContentChange.mk (Range4 0 1 0 1) newText)
  = Range4 2 0 2 2
  /\ drop 6 (replaceBetween content 1 1 newText) = drop 3 content
  /\ take 2 (drop 6 (replaceBetween content 1 1 newText)) = txt "cd".
Proof.
  pose proof (shiftRange_exact_for_change_before
                (txt "ab" ++ NL :: txt "cd" ++ NL :: txt "ef")
                (txt "X" ++ NL :: txt "Y") 1 1 3 5
                ltac:(lia) ltac:(lia) ltac:(lia) ltac:(simpl; lia) ltac:(lia))
    as H.
  vm_compute in H. vm_compute. exact H.
Defined.

(** A change that replaces nothing by nothing leaves a range on
    non-negative lines as it is. *)
Theorem shiftRange_empty_change (r : Range) (p : Position) :
  0 <= line (start r) -> 0 <= line (end_ r) ->
  shiftRange r (ContentChange.mk (mkRange p p) []) = r.
Proof.
  intros Hs He. destruct r as [[sl sc] [el ec]]. destruct p as [pl pc].
  unfold shiftRange, changeAfter, changeBefore, changeAbuts, lineDelta,
    removedLineCount, addedLineCount, lastNewLineLength, translate.
  simpl in *.
  rewrite ?Z.gtb_ltb, ?Z.geb_leb.
  repeat (match goal with
          | |- context [Z.ltb ?x ?y] => destruct (Z.ltb_spec x y)
          | |- context [Z.leb ?x ?y] => destruct (Z.leb_spec x y)
          | |- context [Z.eqb ?x ?y] => destruct (Z.eqb_spec x y)
          end; try lia); simpl; try reflexivity;
  f_equal; f_equal; lia.
Qed.

Lemma shiftRange_empty_change_witness :
  shiftRange (Range4 5 0 5 10) (ContentChange.mk (Range4 5 4 5 4) [])
  = Range4 5 0 5 10.
Proof.
  apply (shiftRange_empty_change (Range4 5 0 5 10) (mkPosition 5 4)); simpl; lia.
Defined.

(** [track] followed by [remove] of the same id gives back a tracker in
    which the id was not tracked; from an empty tracker, [activeCount] is
    0 again. *)
Theorem track_then_remove
    (pending : gmap string PendingInsertion.t) (id uri : string) (range : Range) :
  pending !! id = None ->
  exists tracked,
    track id uri range pending = Returned tracked
    /\ activeCount tracked = S (activeCount pending)
    /\ remove id tracked = pending
    /\ activeCount (remove id tracked) = activeCount pending.
Proof.
  intros Hnone. eexists. split; [reflexivity|].
  assert (Hrem : remove id (<[id := PendingInsertion.mk id uri range]> pending)
                 = pending).
  { unfold remove. rewrite delete_insert_eq. now apply delete_id. }
  split; [|split].
  - unfold activeCount. now apply map_size_insert_None.
  - exact Hrem.
  - now rewrite Hrem.
Qed.

Lemma track_then_remove_witness :
  exists tracked,
    track "r1" "file:///test.ts" (Range4 5 0 5 10) ∅ = Returned tracked
    /\ activeCount tracked = S (activeCount ∅)
    /\ remove "r1" tracked = ∅
    /\ activeCount (remove "r1" tracked) = activeCount ∅.
Proof.
  apply (track_then_remove ∅ "r1" "file:///test.ts" (Range4 5 0 5 10)).
  apply lookup_empty.
Defined.

(** An event for a document that no pending insertion targets changes
    neither the tracked ranges nor [activeCount]. *)
Theorem adjustForChanges_other_document
    (e : ChangeEvent) (pending : gmap string PendingInsertion.t) :
  (forall id entry, pending !! id = Some entry ->
                    PendingInsertion.uri entry <> docUri e) ->
  adjustForChanges e pending = pending
  /\ activeCount (adjustForChanges e pending) = activeCount pending.
Proof.
  intros Hother.
  assert (Hsame : adjustForChanges e pending = pending).
  { apply map_eq. intros id. rewrite adjustForChanges_lookup.
    destruct (pending !! id) as [entry|] eqn:Hlook; [|reflexivity].
    simpl. unfold adjustEntry.
    destruct (decide _) as [Heq|_]; [|reflexivity].
    exfalso. exact (Hother id entry Hlook Heq). }
  split; [exact Hsame | now rewrite Hsame].
Qed.

Lemma adjustForChanges_other_document_witness :
  let pending : gmap string PendingInsertion.t :=
    {[ "r1"%string := PendingInsertion.mk "r1" "file:///test.ts" (Range4 5 0 5 10) ]} in
  let e := mkChangeEvent "file:///other.ts"
             [ContentChange.mk (Range4 0 0 0 0) (txt "inserted" ++ [NL])] in
  adjustForChanges e pending = pending
  /\ activeCount (adjustForChanges e pending) = activeCount pending.
Proof.
  apply (adjustForChanges_other_document
           (mkChangeEvent "file:///other.ts"
              [ContentChange.mk (Range4 0 0 0 0) (txt "inserted" ++ [NL])])
           {[ "r1"%string := PendingInsertion.mk "r1" "file:///test.ts" (Range4 5 0 5 10) ]}).
  intros id entry Hlook.
  apply lookup_singleton_Some in Hlook as [_ <-]. discriminate.
Defined.

End TrackerProps.

(** * Properties of the block locator *)

Module LocatorProps.

Import TextDocument BlockLocator Spec TextProps DocumentProps.

(** *** Counting braces *)

Lemma brace_distinct : LBRACE <> RBRACE /\ LBRACE <> NL /\ RBRACE <> NL.
Proof. repeat split; discriminate. Qed.

Lemma opens_cons (c : ascii) (s : list ascii) :
  opens (c :: s) = ((if chr_eqb c LBRACE then 1 else 0) + opens s)%nat.
Proof.
  unfold opens, chr_eqb. simpl.
  destruct (ascii_dec c LBRACE) as [->|Hne].
  - now rewrite Ascii.eqb_refl.
  - apply Ascii.eqb_neq in Hne. now rewrite Hne.
Qed.

Lemma closes_cons (c : ascii) (s : list ascii) :
  closes (c :: s) = ((if chr_eqb c RBRACE then 1 else 0) + closes s)%nat.
Proof.
  unfold closes, chr_eqb. simpl.
  destruct (ascii_dec c RBRACE) as [->|Hne].
  - now rewrite Ascii.eqb_refl.
  - apply Ascii.eqb_neq in Hne. now rewrite Hne.
Qed.

Lemma opens_zero_iff (s : list ascii) : opens s = 0%nat <-> ~ In LBRACE s.
Proof. unfold opens. symmetry. apply count_occ_not_In. Qed.

(** *** The backward scan *)

Lemma scanBackward_reversed (t : list ascii) (next : nat) (depth : Z) :
  scanBackward t next depth = scanReversed (rev (take next t)) depth.
Proof.
  revert depth. induction next as [|i IH]; intros depth; [reflexivity|].
  simpl scanBackward. unfold charIs.
  destruct (t !! i) as [c|] eqn:Hc.
  - rewrite (take_S_r _ _ _ Hc), rev_app_distr. simpl.
    assert (Hlen : length (rev (take i t)) = i).
    { rewrite length_rev, length_take. apply lookup_lt_Some in Hc. lia. }
    rewrite Hlen, !IH. reflexivity.
  - apply lookup_ge_None in Hc.
    rewrite IH, !take_ge by lia. reflexivity.
Qed.

Lemma scanReversed_none (l : list ascii) (depth : Z) :
  (forall n, (Z.of_nat (opens (take n l)) <= depth + Z.of_nat (closes (take n l)))%Z) ->
  scanReversed l depth = None.
Proof.
  revert depth. induction l as [|c l IH]; intros depth H; [reflexivity|].
  simpl.
  assert (Hs : forall n,
             (Z.of_nat ((if chr_eqb c LBRACE then 1 else 0) + opens (take n l))
              <= depth
                 + Z.of_nat ((if chr_eqb c RBRACE then 1 else 0) + closes (take n l)))%Z).
  { intros n. specialize (H (S n)). simpl in H.
    now rewrite opens_cons, closes_cons in H. }
  destruct (chr_eqb c RBRACE) eqn:Er.
  - apply chr_eqb_eq in Er. subst c.
    apply IH. intros n. specialize (Hs n). simpl in Hs. lia.
  - destruct (chr_eqb c LBRACE) eqn:El.
    + pose proof (Hs 0%nat) as H0. unfold opens, closes in H0. simpl in H0.
      destruct (Z.eqb_spec depth 0); [lia|].
      apply IH. intros m. specialize (Hs m). lia.
    + apply IH. intros n. specialize (Hs n). simpl in Hs. lia.
Qed.

(** Before the cursor no opening brace is left unmatched: every text
    that ends at the cursor closes at least as many braces as it opens. *)
Lemma scanBackward_none (t : list ascii) (offset : nat) :
  (forall k, (opens (drop k (take offset t)) <= closes (drop k (take offset t)))%nat) ->
  scanBackward t offset 0 = None.
Proof.
  intros H. rewrite scanBackward_reversed. apply scanReversed_none.
  intros n. rewrite firstn_rev. unfold opens, closes.
  rewrite !count_occ_rev. specialize (H (length (take offset t) - n)%nat).
  unfold opens, closes in H. lia.
Qed.

(** *** The forward scans *)

Lemma scanLine_none (rest : list ascii) (i : nat) :
  ~ In LBRACE (restOfLine rest) -> scanLine rest i = None.
Proof.
  revert i. induction rest as [|c rest IH]; intros i H; [reflexivity|].
  simpl in *. destruct (chr_eqb c NL); [reflexivity|].
  destruct (chr_eqb c LBRACE) eqn:El.
  - apply chr_eqb_eq in El. subst c. exfalso. apply H. now left.
  - apply IH. intros Hin. apply H. now right.
Qed.

Lemma scanClosing_none (rest : list ascii) (i : nat) (depth : Z) :
  (forall n, (Z.of_nat (closes (take n rest)) < depth + Z.of_nat (opens (take n rest)))%Z) ->
  scanClosing rest i depth = None.
Proof.
  revert i depth. induction rest as [|c rest IH]; intros i depth H; [reflexivity|].
  simpl.
  assert (Hs : forall n,
             (Z.of_nat ((if chr_eqb c RBRACE then 1 else 0) + closes (take n rest))
              < depth
                + Z.of_nat ((if chr_eqb c LBRACE then 1 else 0) + opens (take n rest)))%Z).
  { intros n. specialize (H (S n)). simpl in H.
    now rewrite opens_cons, closes_cons in H. }
  destruct (chr_eqb c LBRACE) eqn:El.
  - apply chr_eqb_eq in El. subst c.
    apply IH. intros n. specialize (Hs n). simpl in Hs. lia.
  - destruct (chr_eqb c RBRACE) eqn:Er.
    + pose proof (Hs 0%nat) as H0. unfold opens, closes in H0. simpl in H0.
      destruct (Z.eqb_spec (depth - 1) 0); [lia|].
      apply IH. intros m. specialize (Hs m). lia.
    + apply IH. intros n. specialize (Hs n). simpl in Hs. lia.
Qed.

Lemma restOfLine_subseteq (s : list ascii) : restOfLine s ⊆ s.
Proof.
  induction s as [|c s IH]; simpl; [done|].
  destruct (chr_eqb c NL); [apply list_subseteq_nil|].
  intros x Hx. apply elem_of_cons in Hx as [->|Hx]; [left | right; auto].
Qed.

Lemma opens_not_elem (s : list ascii) : LBRACE ∉ s -> opens s = 0%nat.
Proof. rewrite list_elem_of_In. apply opens_zero_iff. Qed.

Lemma closes_not_elem (s : list ascii) : RBRACE ∉ s -> closes s = 0%nat.
Proof. rewrite list_elem_of_In. unfold closes. apply count_occ_not_In. Qed.

(** *** Scanning over balanced text *)

Lemma scanReversed_balanced (s : list ascii) :
  Balanced s ->
  forall (rest : list ascii) (depth : Z),
    (0 <= depth)%Z ->
    scanReversed (rev s ++ rest) depth = scanReversed rest depth.
Proof.
  induction 1 as [|c s Hl Hr _ IH|s1 s2 _ IH1 _ IH2]; intros rest depth Hd.
  - reflexivity.
  - simpl rev. rewrite <- app_assoc. simpl. rewrite IH by exact Hd.
    simpl. apply chr_eqb_neq in Hl, Hr. now rewrite Hl, Hr.
  - simpl rev. rewrite rev_app_distr. simpl rev.
    rewrite <- !app_assoc. simpl.
    rewrite IH2 by exact Hd. simpl.
    rewrite IH1 by lia. simpl.
    destruct (Z.eqb_spec (depth + 1) 0); [lia|].
    now rewrite Z.add_simpl_r.
Qed.

Lemma scanClosing_balanced (s : list ascii) :
  Balanced s ->
  forall (rest : list ascii) (i : nat) (depth : Z),
    (0 < depth)%Z ->
    scanClosing (s ++ rest) i depth = scanClosing rest (i + length s) depth.
Proof.
  induction 1 as [|c s Hl Hr _ IH|s1 s2 _ IH1 _ IH2]; intros rest i depth Hd.
  - simpl. now rewrite Nat.add_0_r.
  - simpl. apply chr_eqb_neq in Hl, Hr. rewrite Hl, Hr.
    rewrite IH by exact Hd. f_equal. lia.
  - simpl. rewrite <- app_assoc. rewrite IH1 by lia. simpl.
    destruct (Z.eqb_spec (depth + 1 - 1) 0); [lia|].
    rewrite Z.add_simpl_r, IH2 by exact Hd.
    f_equal. rewrite length_app. simpl. lia.
Qed.

Lemma findBlockStart_inner (pre inner1 rest : list ascii) :
  Balanced inner1 ->
  findBlockStart (pre ++ LBRACE :: inner1 ++ rest) (length pre + 1 + length inner1)
  = Some (length pre).
Proof.
  intros Hb. unfold findBlockStart. rewrite scanBackward_reversed.
  replace (take (length pre + 1 + length inner1) (pre ++ LBRACE :: inner1 ++ rest))
    with (pre ++ LBRACE :: inner1).
  2:{ replace (pre ++ LBRACE :: inner1 ++ rest)
        with ((pre ++ LBRACE :: inner1) ++ rest)
        by (now rewrite <- app_assoc).
      symmetry. apply take_app_length'. rewrite length_app. simpl. lia. }
  rewrite rev_app_distr. simpl rev. rewrite <- app_assoc. simpl.
  rewrite scanReversed_balanced by (exact Hb || lia).
  simpl. now rewrite length_rev.
Qed.

Lemma findBlockEnd_inner (pre inner post : list ascii) :
  Balanced inner ->
  findBlockEnd (pre ++ LBRACE :: inner ++ RBRACE :: post) (length pre)
  = Some (length pre + 1 + length inner + 1)%nat.
Proof.
  intros Hb. unfold findBlockEnd.
  replace (drop (length pre + 1) (pre ++ LBRACE :: inner ++ RBRACE :: post))
    with (inner ++ RBRACE :: post).
  2:{ replace (pre ++ LBRACE :: inner ++ RBRACE :: post)
        with ((pre ++ [LBRACE]) ++ inner ++ RBRACE :: post)
        by (now rewrite <- app_assoc).
      symmetry. apply drop_app_length'. rewrite length_app. simpl. lia. }
  rewrite scanClosing_balanced by (exact Hb || lia). reflexivity.
Qed.

Lemma Balanced_app (s1 s2 : list ascii) :
  Balanced s1 -> Balanced s2 -> Balanced (s1 ++ s2).
Proof.
  induction 1 as [|c s Hl Hr Hs IH|a b Ha IHa Hb IHb]; intros H2; simpl.
  - exact H2.
  - apply Balanced_other; auto.
  - rewrite <- app_assoc. simpl. apply Balanced_pair; auto.
Qed.

(** *** What the scans return *)

Lemma scanBackward_some (t : list ascii) (next : nat) (depth : Z) (b : nat) :
  scanBackward t next depth = Some b ->
  (b < next)%nat /\ t !! b = Some LBRACE.
Proof.
  revert depth. induction next as [|i IH]; intros depth; [discriminate|].
  simpl. unfold charIs at 1 2.
  destruct (t !! i) as [c|] eqn:Hc.
  - destruct (chr_eqb c RBRACE).
    + intros H. apply IH in H. split; [lia | tauto].
    + destruct (chr_eqb c LBRACE) eqn:El.
      * apply chr_eqb_eq in El. subst c.
        destruct (depth =? 0)%Z.
        -- intros [= <-]. split; [lia | exact Hc].
        -- intros H. apply IH in H. split; [lia | tauto].
      * intros H. apply IH in H. split; [lia | tauto].
  - intros H. apply IH in H. split; [lia | tauto].
Qed.

Lemma scanLine_some (rest : list ascii) (i b : nat) :
  scanLine rest i = Some b ->
  (i <= b)%nat /\ rest !! (b - i)%nat = Some LBRACE.
Proof.
  revert i. induction rest as [|c rest IH]; intros i; [discriminate|].
  simpl. destruct (chr_eqb c NL); [discriminate|].
  destruct (chr_eqb c LBRACE) eqn:El.
  - apply chr_eqb_eq in El. subst c. intros [= <-].
    rewrite Nat.sub_diag. split; [lia | reflexivity].
  - intros H. apply IH in H as [Hle Hb]. split; [lia|].
    replace (b - i)%nat with (S (b - S i)) by lia. exact Hb.
Qed.

Lemma scanClosing_some (rest : list ascii) (i : nat) (depth : Z) (e : nat) :
  scanClosing rest i depth = Some e ->
  (i < e)%nat /\ (e <= i + length rest)%nat
  /\ rest !! (e - 1 - i)%nat = Some RBRACE.
Proof.
  revert i depth. induction rest as [|c rest IH]; intros i depth; [discriminate|].
  simpl.
  assert (Hrec : forall d, scanClosing rest (S i) d = Some e ->
                           (i < e)%nat /\ (e <= i + S (length rest))%nat
                           /\ (c :: rest) !! (e - 1 - i)%nat = Some RBRACE).
  { intros d H. apply IH in H as (H1 & H2 & H3). repeat split; try lia.
    replace (e - 1 - i)%nat with (S (e - 1 - S i)) by lia. exact H3. }
  destruct (chr_eqb c LBRACE); [apply Hrec|].
  destruct (chr_eqb c RBRACE) eqn:Er; [|apply Hrec].
  apply chr_eqb_eq in Er. subst c.
  destruct (depth - 1 =? 0)%Z; [|apply Hrec].
  intros [= <-]. repeat split; try lia.
  replace (i + 1 - 1 - i)%nat with 0%nat by lia. reflexivity.
Qed.

Lemma findBlockStart_some (t : list ascii) (offset b : nat) :
  findBlockStart t offset = Some b -> t !! b = Some LBRACE.
Proof.
  unfold findBlockStart.
  destruct (scanBackward t offset 0) as [i|] eqn:Hback.
  - intros [= <-]. now apply scanBackward_some in Hback.
  - intros H. apply scanLine_some in H as [Hle Hb].
    rewrite lookup_drop in Hb.
    now replace (offset + (b - offset))%nat with b in Hb by lia.
Qed.

Lemma findBlockEnd_some (t : list ascii) (b e : nat) :
  findBlockEnd t b = Some e ->
  (b < e - 1)%nat /\ (e <= length t)%nat /\ t !! (e - 1)%nat = Some RBRACE.
Proof.
  unfold findBlockEnd. intros H.
  apply scanClosing_some in H as (H1 & H2 & H3).
  rewrite lookup_drop in H3.
  replace (b + 1 + (e - 1 - (b + 1)))%nat with (e - 1)%nat in H3 by lia.
  pose proof (lookup_lt_Some _ _ _ H3) as Hlt.
  rewrite length_drop in H2.
  repeat split; [|lia|exact H3].
  destruct (Nat.eq_dec e (b + 1 + 1)) as [Heq|Hne]; [|lia]. lia.
Qed.

(** *** The upward walk *)

Lemma endsDeclaration_false (t : list ascii) :
  endsDeclaration (trimEnd t) = false <-> continuesDeclaration t.
Proof.
  unfold continuesDeclaration, endsDeclaration, endsWith. split.
  - destruct (trimEnd t) as [|x s] eqn:E; [discriminate|].
    destruct (last (x :: s)) as [c|] eqn:Hlast.
    + apply last_Some in Hlast as [body Hbody]. intros H.
      apply orb_false_iff in H as [H Hl]. apply orb_false_iff in H as [Hs Hr].
      exists body, c. repeat split; [exact Hbody | | | ]; now apply chr_eqb_neq.
    + apply last_None in Hlast. discriminate.
  - intros (body & c & -> & Hs & Hr & Hl).
    rewrite last_snoc. apply chr_eqb_neq in Hs, Hr, Hl. rewrite Hs, Hr, Hl.
    destruct body; reflexivity.
Qed.

Lemma walkUp_spec (content : list ascii) (n : nat) :
  exists first : nat,
    walkUp content n (Z.of_nat n) = Z.of_nat first
    /\ (first <= n)%nat
    /\ (forall l, (first <= l < n)%nat -> continuesDeclaration (lineText content l))
    /\ (first = 0%nat \/ ~ continuesDeclaration (lineText content (first - 1))).
Proof.
  induction n as [|l IH].
  - exists 0%nat. simpl. repeat split; [lia | intros; lia | now left].
  - simpl walkUp. unfold lineAt. simpl text. rewrite lineTextAt_nat.
    destruct (endsDeclaration (trimEnd (lineText content l))) eqn:E.
    + exists (S l). repeat split; [lia | intros; lia |].
      right. replace (S l - 1)%nat with l by lia.
      rewrite <- endsDeclaration_false. now rewrite E.
    + destruct IH as (first & Hw & Hle & Hall & Hstop).
      exists first. repeat split; [exact Hw | lia | | exact Hstop].
      intros k Hk. destruct (Nat.eq_dec k l) as [->|Hne].
      * now apply endsDeclaration_false.
      * apply Hall. lia.
Qed.

(** *** The block built from the two braces *)

Lemma blockOf_spec (content : list ascii) (blockStart blockEnd : nat) :
  (blockStart < blockEnd)%nat ->
  (blockEnd <= length content)%nat ->
  content !! (blockEnd - 1)%nat = Some RBRACE ->
  exists first : nat,
    (first <= lineOfOffset content blockStart)%nat
    /\ (forall l, (first <= l < lineOfOffset content blockStart)%nat ->
                  continuesDeclaration (lineText content l))
    /\ (first = 0%nat \/ ~ continuesDeclaration (lineText content (first - 1)))
    /\ blockOf content blockStart blockEnd
       = let last := lineOfOffset content (blockEnd - 1) in
         mkBlock (linesBetween content first last)
           (Range4 (Z.of_nat first) 0 (Z.of_nat last)
              (Z.of_nat (length (lineText content last)))).
Proof.
  intros Hlt Hle Hbrace.
  destruct (walkUp_spec content (lineOfOffset content blockStart))
    as (first & Hwalk & Hfirst & Hall & Hstop).
  exists first. split; [exact Hfirst|]. split; [exact Hall|]. split; [exact Hstop|].
  assert (Hlast : lineOfOffset content blockEnd
                  = lineOfOffset content (blockEnd - 1)).
  { replace blockEnd with (S (blockEnd - 1)) at 1 by lia.
    apply (lineOfOffset_after _ _ _ Hbrace). discriminate. }
  unfold blockOf.
  rewrite !positionAt_line by lia.
  rewrite Nat2Z.id, Hwalk, Hlast.
  set (last := lineOfOffset content (blockEnd - 1)).
  assert (Hrange : mkRange (mkPosition (Z.of_nat first) 0)
                     (end_ (range (lineAt content (Z.of_nat last))))
                   = Range4 (Z.of_nat first) 0 (Z.of_nat last)
                       (Z.of_nat (length (lineText content last)))).
  { unfold lineAt, Range4. simpl. now rewrite lineTextAt_nat. }
  rewrite Hrange. cbv zeta. f_equal.
  apply getText_lines.
  - pose proof (lineOfOffset_mono content blockStart (blockEnd - 1)). unfold last. lia.
  - apply lineOfOffset_lt_lineCount.
Qed.

(** *** What a failed or a successful scan says about the text *)

Lemma scanReversed_none_inv (l : list ascii) (depth : Z) :
  (0 <= depth)%Z ->
  scanReversed l depth = None ->
  forall n, (Z.of_nat (opens (take n l)) <= depth + Z.of_nat (closes (take n l)))%Z.
Proof.
  revert depth. induction l as [|c l IH]; intros depth Hd H n.
  - rewrite take_nil. unfold opens, closes. simpl. lia.
  - destruct n as [|n]; [unfold opens, closes; simpl; lia|].
    simpl take. rewrite opens_cons, closes_cons. simpl in H.
    destruct (chr_eqb c RBRACE) eqn:Er.
    + assert (El : chr_eqb c LBRACE = false).
      { apply chr_eqb_eq in Er. subst c. reflexivity. }
      rewrite El. specialize (IH (depth + 1)%Z ltac:(lia) H n). lia.
    + destruct (chr_eqb c LBRACE) eqn:El.
      * destruct (Z.eqb_spec depth 0); [discriminate|].
        specialize (IH (depth - 1)%Z ltac:(lia) H n). lia.
      * specialize (IH depth Hd H n). lia.
Qed.

Lemma scanBackward_none_inv (t : list ascii) (offset : nat) :
  scanBackward t offset 0 = None ->
  forall k, (opens (drop k (take offset t)) <= closes (drop k (take offset t)))%nat.
Proof.
  rewrite scanBackward_reversed. intros H k.
  pose proof (scanReversed_none_inv _ 0%Z ltac:(lia) H
                (length (take offset t) - k)) as Hn.
  rewrite firstn_rev in Hn. unfold opens, closes in *.
  rewrite !count_occ_rev in Hn.
  destruct (Nat.le_gt_cases k (length (take offset t))) as [Hle|Hgt].
  - replace (length (take offset t) - (length (take offset t) - k))%nat
      with k in Hn by lia. lia.
  - rewrite drop_ge by lia. simpl. lia.
Qed.

Lemma scanLine_none_inv (rest : list ascii) (i : nat) :
  scanLine rest i = None -> LBRACE ∉ restOfLine rest.
Proof.
  revert i. induction rest as [|c rest IH]; intros i H; simpl.
  - apply not_elem_of_nil.
  - simpl in H. destruct (chr_eqb c NL); [apply not_elem_of_nil|].
    destruct (chr_eqb c LBRACE) eqn:El; [discriminate|].
    apply chr_eqb_neq in El. intros Hin.
    apply elem_of_cons in Hin as [Heq|Hin]; [congruence|].
    exact (IH _ H Hin).
Qed.

Lemma scanClosing_none_inv (rest : list ascii) (i : nat) (depth : Z) :
  (0 < depth)%Z ->
  scanClosing rest i depth = None ->
  forall n, (Z.of_nat (closes (take n rest)) < depth + Z.of_nat (opens (take n rest)))%Z.
Proof.
  revert i depth. induction rest as [|c rest IH]; intros i depth Hd H n.
  - rewrite take_nil. unfold opens, closes. simpl. lia.
  - destruct n as [|n]; [unfold opens, closes; simpl; lia|].
    simpl take. rewrite opens_cons, closes_cons. simpl in H.
    destruct (chr_eqb c LBRACE) eqn:El.
    + assert (Er : chr_eqb c RBRACE = false).
      { apply chr_eqb_eq in El. subst c. reflexivity. }
      rewrite Er. specialize (IH _ (depth + 1)%Z ltac:(lia) H n). lia.
    + destruct (chr_eqb c RBRACE) eqn:Er.
      * destruct (Z.eqb_spec (depth - 1) 0); [discriminate|].
        specialize (IH _ (depth - 1)%Z ltac:(lia) H n). lia.
      * specialize (IH _ depth Hd H n). lia.
Qed.

(** Up to the brace that closes it, a scan from depth [depth] stays at
    depth 1 or more and ends at depth 1. *)
Lemma scanClosing_some_counts (rest : list ascii) (i : nat) (depth : Z) (e : nat) :
  (0 < depth)%Z ->
  scanClosing rest i depth = Some e ->
  let body := take (e - 1 - i) rest in
  (Z.of_nat (opens body) + depth = Z.of_nat (closes body) + 1)%Z
  /\ forall n, (Z.of_nat (closes (take n body))
                < depth + Z.of_nat (opens (take n body)))%Z.
Proof.
  revert i depth. induction rest as [|c rest IH]; intros i depth Hd H;
    [discriminate|].
  pose proof (scanClosing_some _ _ _ _ H) as (Hlt & _ & _).
  simpl in H.
  assert (Hrec : forall d,
    (0 < d)%Z ->
    scanClosing rest (S i) d = Some e ->
    (Z.of_nat ((if chr_eqb c LBRACE then 1 else 0)) + depth
     = d + Z.of_nat ((if chr_eqb c RBRACE then 1 else 0)))%Z ->
    let body := take (e - 1 - i) (c :: rest) in
    (Z.of_nat (opens body) + depth = Z.of_nat (closes body) + 1)%Z
    /\ forall n, (Z.of_nat (closes (take n body))
                  < depth + Z.of_nat (opens (take n body)))%Z).
  { intros d Hd' Hscan Hstep.
    pose proof (scanClosing_some _ _ _ _ Hscan) as (Hlt' & _ & _).
    destruct (IH _ _ Hd' Hscan) as [Hbal Hpre].
    replace (e - 1 - i)%nat with (S (e - 1 - S i)) by lia.
    simpl take. cbv zeta. rewrite opens_cons, closes_cons. split; [lia|].
    intros [|n]; [unfold opens, closes; simpl; lia|].
    simpl take. rewrite opens_cons, closes_cons. specialize (Hpre n). lia. }
  destruct (chr_eqb c LBRACE) eqn:El.
  - assert (Er : chr_eqb c RBRACE = false).
    { apply chr_eqb_eq in El. subst c. reflexivity. }
    apply (Hrec (depth + 1)%Z); [lia | exact H | rewrite Er; lia].
  - destruct (chr_eqb c RBRACE) eqn:Er.
    + destruct (Z.eqb_spec (depth - 1) 0) as [H0|Hn0].
      * injection H as <-. replace (i + 1 - 1 - i)%nat with 0%nat by lia.
        simpl. unfold opens, closes. simpl. split; [lia|].
        intros n. rewrite take_nil. simpl. lia.
      * apply (Hrec (depth - 1)%Z); [lia | exact H | lia].
    + apply (Hrec depth); [lia | exact H | lia].
Qed.

(** *** The three cases of the result *)

(** C7, as the code has it: with the cursor directly inside a brace pair
    (the text of the pair before the cursor and the text after it are each
    balanced), whatever surrounds the pair, outer braces included, the
    backward scan stops at the opening brace of that pair and the forward
    scan just past its closing brace: the pair selected is the innermost
    one.  The block returned is that pair widened to whole lines: it goes
    from column 0 of a first line, reached from the line of that opening
    brace over declaration lines only, to the end of the line of that
    closing brace, and its text is these lines.  On the nested-function
    test, where the outer braces are on other lines, the block for a
    cursor in the inner body is lines 1 to 3: the inner function alone. *)
Theorem getEnclosingBlock_innermost :
  (forall (pre inner1 inner2 post : list ascii) (position : Position),
      Balanced inner1 ->
      Balanced inner2 ->
      let content := pre ++ LBRACE :: inner1 ++ inner2 ++ RBRACE :: post in
      let openAt := length pre in
      let closeAt := (length pre + 1 + length (inner1 ++ inner2))%nat in
      offsetAt content position = Z.of_nat (length pre + 1 + length inner1) ->
      findBlockStart content (Z.to_nat (offsetAt content position)) = Some openAt
      /\ findBlockEnd content openAt = Some (closeAt + 1)%nat
      /\ exists first : nat,
           (first <= lineOfOffset content openAt)%nat
           /\ (forall l, (first <= l < lineOfOffset content openAt)%nat ->
                         continuesDeclaration (lineText content l))
           /\ (first = 0%nat
               \/ ~ continuesDeclaration (lineText content (first - 1)))
           /\ getEnclosingBlock content position
              = Some (mkBlock
                        (linesBetween content first (lineOfOffset content closeAt))
                        (Range4 (Z.of_nat first) 0
                           (Z.of_nat (lineOfOffset content closeAt))
                           (Z.of_nat (length (lineText content
                                                (lineOfOffset content closeAt)))))))
  /\ getEnclosingBlock nestedExample (mkPosition 2 4)
     = Some (mkBlock
               (joinLines [txt "  function inner() {"; txt "    return 1;"; txt "  }"])
               (Range4 1 0 3 3)).
Proof.
  split; [|vm_compute; reflexivity].
  intros pre inner1 inner2 post position H1 H2 content openAt closeAt Hoff.
  assert (Hstart : findBlockStart content (Z.to_nat (offsetAt content position))
                   = Some openAt).
  { rewrite Hoff, Nat2Z.id. apply findBlockStart_inner. exact H1. }
  assert (Hend : findBlockEnd content openAt = Some (closeAt + 1)%nat).
  { unfold content, openAt, closeAt. rewrite app_assoc.
    apply findBlockEnd_inner. now apply Balanced_app. }
  split; [exact Hstart|]. split; [exact Hend|].
  destruct (findBlockEnd_some _ _ _ Hend) as (Hlt & Hle & Hclose).
  destruct (blockOf_spec content openAt (closeAt + 1) ltac:(lia) Hle Hclose)
    as (first & Hfirst & Hall & Hstop & Hblock).
  replace (closeAt + 1 - 1)%nat with closeAt in Hblock by lia.
  exists first. repeat (split; [assumption|]).
  unfold getEnclosingBlock, getEnclosingBlockAt.
  now rewrite Hstart, Hend, Hblock.
Qed.

(** Builds the derivation for a text without braces. *)
Ltac balanced_plain :=
  cbv; repeat (apply Balanced_other; [discriminate | discriminate |]);
  apply Balanced_nil.

Lemma getEnclosingBlock_innermost_witness :
  let content :=
    nestedPre ++ LBRACE :: nestedInner1 ++ nestedInner2 ++ RBRACE :: nestedPost in
  content = nestedExample
  /\ findBlockStart content (Z.to_nat (offsetAt content (mkPosition 2 4)))
     = Some 38%nat
  /\ findBlockEnd content 38 = Some 57%nat
  /\ exists first : nat,
       (first <= lineOfOffset content 38)%nat
       /\ (forall l, (first <= l < lineOfOffset content 38)%nat ->
                     continuesDeclaration (lineText content l))
       /\ (first = 0%nat \/ ~ continuesDeclaration (lineText content (first - 1)))
       /\ getEnclosingBlock content (mkPosition 2 4)
          = Some (mkBlock
                    (linesBetween content first (lineOfOffset content 56))
                    (Range4 (Z.of_nat first) 0
                       (Z.of_nat (lineOfOffset content 56))
                       (Z.of_nat (length (lineText content
                                            (lineOfOffset content 56)))))).
Proof.
  split; [reflexivity|].
  apply (proj1 getEnclosingBlock_innermost
           nestedPre nestedInner1 nestedInner2 nestedPost (mkPosition 2 4)).
  - balanced_plain.
  - balanced_plain.
  - reflexivity.
Defined.

(** C7, as the specification states it, fails on the text of its own
    example, [{ { } }] on one line.  The cursor at offset 3 is inside the
    inner pair (braces at offsets 2 and 4) and the scans select that pair,
    but the block returned is the whole line, columns 0 to 7: it is the
    extent of the outer pair (braces at offsets 0 and 6), the very block a
    cursor at offset 1, inside the outer pair only, gets, and it is not the
    extent of the inner pair, columns 2 to 5 with text [{ }]. *)
Lemma getEnclosingBlock_pairs_on_one_line :
  findBlockStart (txt "{ { } }") 3 = Some 2%nat
  /\ findBlockEnd (txt "{ { } }") 2 = Some 5%nat
  /\ getEnclosingBlock (txt "{ { } }") (mkPosition 0 3)
     = Some (mkBlock (txt "{ { } }") (Range4 0 0 0 7))
  /\ findBlockStart (txt "{ { } }") 1 = Some 0%nat
  /\ findBlockEnd (txt "{ { } }") 0 = Some 7%nat
  /\ getEnclosingBlock (txt "{ { } }") (mkPosition 0 1)
     = getEnclosingBlock (txt "{ { } }") (mkPosition 0 3)
  /\ getText (txt "{ { } }") (Range4 0 2 0 5) = txt "{ }"
  /\ getEnclosingBlock (txt "{ { } }") (mkPosition 0 3)
     <> Some (mkBlock (txt "{ }") (Range4 0 2 0 5)).
Proof.
  repeat split; try (vm_compute; reflexivity).
  vm_compute. discriminate.
Qed.

(** No opening brace is found. *)
Lemma findBlockStart_none (content : list ascii) (offset : nat) :
  (forall k, (opens (drop k (take offset content))
              <= closes (drop k (take offset content)))%nat) ->
  LBRACE ∉ restOfLine (drop offset content) ->
  findBlockStart content offset = None.
Proof.
  intros Hback Hline. unfold findBlockStart.
  rewrite (scanBackward_none _ _ Hback).
  apply scanLine_none. now rewrite <- list_elem_of_In.
Qed.

(** The opening brace is never closed. *)
Lemma findBlockEnd_none (content : list ascii) (blockStart : nat) :
  (forall n, (closes (take n (drop (blockStart + 1) content))
              <= opens (take n (drop (blockStart + 1) content)))%nat) ->
  findBlockEnd content blockStart = None.
Proof.
  intros Hopen. unfold findBlockEnd. apply scanClosing_none.
  intros n. specialize (Hopen n). lia.
Qed.

(** C8: [getEnclosingBlock] answers [null]
    - when no opening brace before the cursor is left unmatched (every
      text that ends at the cursor closes at least as many braces as it
      opens) and there is no opening brace from the cursor to the end of
      its line; in particular when the text has no opening brace at all;
    - when an opening brace was found and the text after it never closes
      it: every text that starts after the brace closes no more braces
      than it opens. *)
Theorem getEnclosingBlock_none (content : list ascii) (position : Position) :
  let offset := Z.to_nat (offsetAt content position) in
  ((forall k, (opens (drop k (take offset content))
               <= closes (drop k (take offset content)))%nat) ->
   LBRACE ∉ restOfLine (drop offset content) ->
   getEnclosingBlock content position = None)
  /\ (LBRACE ∉ content -> getEnclosingBlock content position = None)
  /\ (forall blockStart,
        findBlockStart content offset = Some blockStart ->
        (forall n, (closes (take n (drop (blockStart + 1) content))
                    <= opens (take n (drop (blockStart + 1) content)))%nat) ->
        getEnclosingBlock content position = None).
Proof.
  intros offset.
  assert (Hfirst :
    (forall k, (opens (drop k (take offset content))
                <= closes (drop k (take offset content)))%nat) ->
    LBRACE ∉ restOfLine (drop offset content) ->
    getEnclosingBlock content position = None).
  { intros Hback Hline.
    unfold getEnclosingBlock, getEnclosingBlockAt. fold offset.
    now rewrite findBlockStart_none. }
  split; [exact Hfirst|]. split.
  - intros Hno. apply Hfirst.
    + intros k. rewrite opens_not_elem; [lia|].
      intros Hin. apply Hno.
      eapply subseteq_take, subseteq_drop, Hin.
    + intros Hin. apply Hno.
      eapply subseteq_drop, restOfLine_subseteq, Hin.
  - intros blockStart Hstart Hopen.
    unfold getEnclosingBlock, getEnclosingBlockAt. fold offset.
    now rewrite Hstart, findBlockEnd_none.
Qed.

Lemma getEnclosingBlock_none_witness :
  getEnclosingBlock noBraceExample (mkPosition 0 5) = None
  /\ getEnclosingBlock unclosedExample (mkPosition 1 5) = None.
Proof.
  split.
  - apply (proj1 (proj2 (getEnclosingBlock_none noBraceExample (mkPosition 0 5)))).
    apply (bool_decide_unpack (LBRACE ∉ noBraceExample)). vm_compute. exact I.
  - apply (proj2 (proj2 (getEnclosingBlock_none unclosedExample (mkPosition 1 5)))
             15%nat).
    + reflexivity.
    + intros n. rewrite (closes_not_elem (take n _)); [lia|].
      intros Hin. apply subseteq_take in Hin. revert Hin.
      apply (bool_decide_unpack (RBRACE ∉ drop (15 + 1) unclosedExample)).
      vm_compute. exact I.
Defined.

(** C9: when a block is found, its first line is reached from the line of
    the opening brace by walking up over lines that, trimmed of trailing
    white space, are not empty and end in none of [;], [}], [{]; the walk
    stops at line 0 or below the first line that fails this test, which
    is left out.  The range goes from column 0 of that first line to the
    end of the line that holds the closing brace, and the text is the
    lines of the document from the first to that last one, joined by
    newlines as they are in the document. *)
Theorem getEnclosingBlock_extent
    (content : list ascii) (position : Position) (block : Block) :
  getEnclosingBlock content position = Some block ->
  exists blockStart blockEnd first last : nat,
    findBlockStart content (Z.to_nat (offsetAt content position)) = Some blockStart
    /\ findBlockEnd content blockStart = Some blockEnd
    /\ content !! blockStart = Some LBRACE
    /\ content !! (blockEnd - 1)%nat = Some RBRACE
    /\ last = lineOfOffset content (blockEnd - 1)
    /\ (first <= lineOfOffset content blockStart)%nat
    /\ (forall l, (first <= l < lineOfOffset content blockStart)%nat ->
                  continuesDeclaration (lineText content l))
    /\ (first = 0%nat \/ ~ continuesDeclaration (lineText content (first - 1)))
    /\ blockRange block
       = Range4 (Z.of_nat first) 0 (Z.of_nat last)
           (Z.of_nat (length (lineText content last)))
    /\ blockText block = linesBetween content first last
    /\ blockText block = getText content (blockRange block).
Proof.
  unfold getEnclosingBlock, getEnclosingBlockAt.
  destruct (findBlockStart content (Z.to_nat (offsetAt content position)))
    as [blockStart|] eqn:Hstart; [|discriminate].
  destruct (findBlockEnd content blockStart) as [blockEnd|] eqn:Hend;
    [|discriminate].
  intros [= <-].
  pose proof (findBlockStart_some _ _ _ Hstart) as Hopen.
  destruct (findBlockEnd_some _ _ _ Hend) as (Hlt & Hle & Hclose).
  destruct (blockOf_spec content blockStart blockEnd ltac:(lia) Hle Hclose)
    as (first & Hfirst & Hall & Hstop & Hblock).
  exists blockStart, blockEnd, first, (lineOfOffset content (blockEnd - 1)).
  repeat (split; [first [reflexivity | assumption]|]).
  split; [now rewrite Hblock|]. split; [now rewrite Hblock|].
  reflexivity.
Qed.

Lemma getEnclosingBlock_extent_witness :
  exists blockStart blockEnd first last : nat,
    findBlockStart signatureExample
      (Z.to_nat (offsetAt signatureExample (mkPosition 4 2))) = Some blockStart
    /\ findBlockEnd signatureExample blockStart = Some blockEnd
    /\ signatureExample !! blockStart = Some LBRACE
    /\ signatureExample !! (blockEnd - 1)%nat = Some RBRACE
    /\ last = lineOfOffset signatureExample (blockEnd - 1)
    /\ (first <= lineOfOffset signatureExample blockStart)%nat
    /\ (forall l, (first <= l < lineOfOffset signatureExample blockStart)%nat ->
                  continuesDeclaration (lineText signatureExample l))
    /\ (first = 0%nat
        \/ ~ continuesDeclaration (lineText signatureExample (first - 1)))
    /\ Range4 0 0 5 1
       = Range4 (Z.of_nat first) 0 (Z.of_nat last)
           (Z.of_nat (length (lineText signatureExample last)))
    /\ signatureExample = linesBetween signatureExample first last
    /\ signatureExample = getText signatureExample (Range4 0 0 5 1).
Proof.
  apply (getEnclosingBlock_extent signatureExample (mkPosition 4 2)
           (mkBlock signatureExample (Range4 0 0 5 1))).
  vm_compute. reflexivity.
Defined.

(** [getEnclosingBlock] answers [null] in the two cases of C8 and in no
    other: no opening brace is found, or the one found is never closed. *)
Theorem getEnclosingBlock_none_iff (content : list ascii) (position : Position) :
  let offset := Z.to_nat (offsetAt content position) in
  getEnclosingBlock content position = None
  <-> ((forall k, (opens (drop k (take offset content))
                   <= closes (drop k (take offset content)))%nat)
       /\ LBRACE ∉ restOfLine (drop offset content))
      \/ (exists blockStart,
             findBlockStart content offset = Some blockStart
             /\ forall n, (closes (take n (drop (blockStart + 1) content))
                           <= opens (take n (drop (blockStart + 1) content)))%nat).
Proof.
  intros offset. split.
  - unfold getEnclosingBlock, getEnclosingBlockAt. fold offset.
    destruct (findBlockStart content offset) as [blockStart|] eqn:Hstart.
    + destruct (findBlockEnd content blockStart) as [blockEnd|] eqn:Hend;
        [discriminate|].
      intros _. right. exists blockStart. split; [reflexivity|].
      intros n. unfold findBlockEnd in Hend.
      pose proof (scanClosing_none_inv _ _ 1%Z ltac:(lia) Hend n). lia.
    + intros _. left. unfold findBlockStart in Hstart.
      destruct (scanBackward content offset 0) eqn:Hback; [discriminate|].
      split.
      * now apply scanBackward_none_inv.
      * now apply scanLine_none_inv in Hstart.
  - unfold getEnclosingBlock, getEnclosingBlockAt. fold offset.
    intros [[Hback Hline]|(blockStart & Hstart & Hopen)].
    + now rewrite findBlockStart_none.
    + now rewrite Hstart, findBlockEnd_none.
Qed.

(** The closing brace of a block matches its opening brace: the text
    between them opens as many braces as it closes, and no beginning of
    it closes more than it opens. *)
Theorem getEnclosingBlock_braces_match
    (content : list ascii) (position : Position) (block : Block) :
  getEnclosingBlock content position = Some block ->
  exists blockStart blockEnd : nat,
    findBlockStart content (Z.to_nat (offsetAt content position)) = Some blockStart
    /\ findBlockEnd content blockStart = Some blockEnd
    /\ content !! blockStart = Some LBRACE
    /\ content !! (blockEnd - 1)%nat = Some RBRACE
    /\ (blockStart < blockEnd - 1)%nat
    /\ let body := take (blockEnd - 1 - (blockStart + 1))
                     (drop (blockStart + 1) content) in
       opens body = closes body
       /\ forall n, (closes (take n body) <= opens (take n body))%nat.
Proof.
  unfold getEnclosingBlock, getEnclosingBlockAt.
  destruct (findBlockStart content (Z.to_nat (offsetAt content position)))
    as [blockStart|] eqn:Hstart; [|discriminate].
  destruct (findBlockEnd content blockStart) as [blockEnd|] eqn:Hend;
    [|discriminate].
  intros _. exists blockStart, blockEnd.
  pose proof (findBlockStart_some _ _ _ Hstart) as Hopen.
  destruct (findBlockEnd_some _ _ _ Hend) as (Hlt & Hle & Hclose).
  repeat (split; [first [reflexivity | assumption]|]).
  unfold findBlockEnd in Hend.
  destruct (scanClosing_some_counts _ _ 1%Z _ ltac:(lia) Hend) as [Hbal Hpre].
  cbv zeta in *. split; [lia|]. intros n. specialize (Hpre n). lia.
Qed.

Lemma getEnclosingBlock_braces_match_witness :
  exists blockStart blockEnd : nat,
    findBlockStart nestedExample
      (Z.to_nat (offsetAt nestedExample (mkPosition 2 4))) = Some blockStart
    /\ findBlockEnd nestedExample blockStart = Some blockEnd
    /\ nestedExample !! blockStart = Some LBRACE
    /\ nestedExample !! (blockEnd - 1)%nat = Some RBRACE
    /\ (blockStart < blockEnd - 1)%nat
    /\ let body := take (blockEnd - 1 - (blockStart + 1))
                     (drop (blockStart + 1) nestedExample) in
       opens body = closes body
       /\ forall n, (closes (take n body) <= opens (take n body))%nat.
Proof.
  apply (getEnclosingBlock_braces_match nestedExample (mkPosition 2 4)
           (mkBlock
              (joinLines [txt "  function inner() {"; txt "    return 1;"; txt "  }"])
              (Range4 1 0 3 3))).
  vm_compute. reflexivity.
Defined.

End LocatorProps.

(** * Offsets and positions of the text document *)

Module DocumentRoundTrips.

Import TextDocument Spec TextProps DocumentProps.

Lemma positionAt_from_inv (ls : list (list ascii)) (i o : nat) (p : Position) :
  positionAt_from ls i o = Some p ->
  exists (k c : nat) (l : list ascii),
    p = mkPosition (Z.of_nat (i + k)) (Z.of_nat c)
    /\ ls !! k = Some l /\ (c <= length l)%nat
    /\ o = (lengthsPlusOne (take k ls) + c)%nat.
Proof.
  revert i o. induction ls as [|l ls IH]; intros i o; [discriminate|].
  simpl. destruct (Nat.leb_spec o (length l)) as [Hle|Hgt].
  - intros [= <-]. exists 0%nat, o, l. rewrite Nat.add_0_r. simpl. auto.
  - intros H. apply IH in H as (k & c & l' & -> & Hk & Hc & Ho).
    exists (S k), c, l'. repeat split; auto.
    + do 2 f_equal. lia.
    + simpl. lia.
Qed.

Lemma positionAt_from_none (ls : list (list ascii)) (i o : nat) :
  positionAt_from ls i o = None -> (lengthsPlusOne ls <= o)%nat.
Proof.
  revert i o. induction ls as [|l ls IH]; intros i o; simpl; [lia|].
  destruct (Nat.leb_spec o (length l)) as [Hle|Hgt]; [discriminate|].
  intros H. apply IH in H. lia.
Qed.

Lemma positionAt_from_hit (ls : list (list ascii)) (i k c : nat) (l : list ascii) :
  ls !! k = Some l -> (c <= length l)%nat ->
  positionAt_from ls i (lengthsPlusOne (take k ls) + c)
  = Some (mkPosition (Z.of_nat (i + k)) (Z.of_nat c)).
Proof.
  revert i k. induction ls as [|l0 ls IH]; intros i k Hk Hc; [discriminate|].
  destruct k as [|k].
  - simpl in Hk. injection Hk as ->. simpl.
    apply Nat.leb_le in Hc. rewrite Hc. now rewrite Nat.add_0_r.
  - simpl in Hk. simpl take. simpl lengthsPlusOne. simpl positionAt_from.
    destruct (Nat.leb_spec (length l0 + 1 + lengthsPlusOne (take k ls) + c)
                (length l0)) as [Hle|Hgt]; [lia|].
    replace (length l0 + 1 + lengthsPlusOne (take k ls) + c - (length l0 + 1))%nat
      with (lengthsPlusOne (take k ls) + c)%nat by lia.
    rewrite (IH (S i) k Hk Hc). do 3 f_equal. lia.
Qed.

Lemma lineStart_lineEnd_le (ls : list (list ascii)) (k : nat) (l : list ascii) :
  ls !! k = Some l ->
  (lengthsPlusOne (take k ls) + length l < lengthsPlusOne ls)%nat.
Proof.
  intros Hk. pose proof (lengthsPlusOne_take_le ls (S k)) as Hle.
  rewrite (take_S_r _ _ _ Hk), lengthsPlusOne_app in Hle. simpl in Hle. lia.
Qed.

Lemma length_content_lines (content : list ascii) :
  lengthsPlusOne (splitLines content) = S (length content).
Proof.
  rewrite lengthsPlusOne_joinLines by apply splitLines_nonempty.
  now rewrite joinLines_splitLines.
Qed.

Lemma last_lookup_lines (ls : list (list ascii)) :
  ls <> [] -> ls !! (length ls - 1)%nat = Some (List.last ls []).
Proof.
  induction ls as [|l ls IH]; [congruence|]. intros _.
  destruct ls as [|l' ls]; [reflexivity|].
  change (List.last (l :: l' :: ls) []) with (List.last (l' :: ls) []).
  rewrite <- IH by discriminate. simpl. now rewrite Nat.sub_0_r.
Qed.

(** [offsetAt] undoes [positionAt]; an offset past the end of the text is
    first brought back to the end. *)
Theorem offsetAt_positionAt (content : list ascii) (o : nat) :
  offsetAt content (positionAt content o) = Z.of_nat (Nat.min o (length content)).
Proof.
  unfold positionAt, lines. pose proof (length_content_lines content) as Hlen.
  destruct (positionAt_from (splitLines content) 0 o) as [p|] eqn:Hp.
  - apply positionAt_from_inv in Hp as (k & c & l & -> & Hk & Hc & ->).
    pose proof (lineStart_lineEnd_le _ _ _ Hk) as Hle.
    unfold offsetAt, lineTextAt, lines. simpl.
    destruct (Z.ltb_spec (Z.of_nat k) 0); [lia|].
    rewrite Nat2Z.id, Hk. simpl. lia.
  - apply positionAt_from_none in Hp.
    pose proof (splitLines_nonempty content) as Hne.
    pose proof (last_lookup_lines _ Hne) as Hlast.
    pose proof (lineStart_lineEnd_le _ _ _ Hlast) as Hle.
    assert (Hn : (0 < length (splitLines content))%nat)
      by (destruct (splitLines content); [congruence | simpl; lia]).
    assert (Hend : (lengthsPlusOne (take (length (splitLines content) - 1)
                                      (splitLines content))
                    + length (List.last (splitLines content) []) + 1
                    = lengthsPlusOne (splitLines content))%nat).
    { transitivity
        (lengthsPlusOne (take (S (length (splitLines content) - 1))
                           (splitLines content))).
      - rewrite (take_S_r _ _ _ Hlast), lengthsPlusOne_app. simpl. lia.
      - f_equal. apply take_ge. lia. }
    unfold offsetAt, lineTextAt, lines. simpl.
    destruct (Z.ltb_spec (Z.of_nat (length (splitLines content)) - 1) 0); [lia|].
    replace (Z.to_nat (Z.of_nat (length (splitLines content)) - 1))
      with (length (splitLines content) - 1)%nat by lia.
    rewrite Hlast. simpl. lia.
Qed.

(** The offset of a position of the document is inside the text, and
    [positionAt] finds the position again from it. *)
Lemma offsetAt_valid (content : list ascii) (p : Position) :
  validPosition content p ->
  exists o : nat,
    offsetAt content p = Z.of_nat o
    /\ (o <= length content)%nat
    /\ positionAt content o = p.
Proof.
  intros (Hl & Hlt & Hc & Hcl). destruct p as [pl pc]. simpl in *.
  unfold lineText in Hcl.
  destruct (splitLines content !! Z.to_nat pl) as [l|] eqn:Hk.
  2:{ apply lookup_ge_None in Hk. lia. }
  simpl in Hcl.
  pose proof (lineStart_lineEnd_le _ _ _ Hk) as Hle.
  pose proof (length_content_lines content) as Hlen.
  exists (lengthsPlusOne (take (Z.to_nat pl) (splitLines content)) + Z.to_nat pc)%nat.
  repeat split.
  - unfold offsetAt, lineTextAt, lines. simpl.
    destruct (Z.ltb_spec pl 0); [lia|]. rewrite Hk. simpl. lia.
  - lia.
  - unfold positionAt, lines.
    rewrite (positionAt_from_hit _ 0 _ _ l Hk) by lia.
    f_equal; lia.
Qed.

(** [positionAt] undoes [offsetAt] on the positions of the document. *)
Theorem positionAt_offsetAt (content : list ascii) (p : Position) :
  validPosition content p ->
  positionAt content (Z.to_nat (offsetAt content p)) = p.
Proof.
  intros Hvalid. destruct (offsetAt_valid content p Hvalid) as (o & Ho & _ & Hp).
  now rewrite Ho, Nat2Z.id.
Qed.

Lemma positionAt_offsetAt_witness :
  positionAt nestedExample (Z.to_nat (offsetAt nestedExample (mkPosition 2 4)))
  = mkPosition 2 4.
Proof.
  apply (positionAt_offsetAt nestedExample (mkPosition 2 4)).
  unfold validPosition. vm_compute. repeat split; try lia; discriminate.
Defined.

(** [offsetAt] on positions with non-negative coordinates: on a line of the
    document the column is cut at the length of the line and the offset is
    inside the text; on a line past the last one the offset is one more
    than the length of the text. *)
Theorem offsetAt_clamps (content : list ascii) (p : Position) :
  pos_nonneg p ->
  ((Z.to_nat (line p) < length (splitLines content))%nat ->
   let len := Z.of_nat (length (lineText content (Z.to_nat (line p)))) in
   offsetAt content p
   = (offsetAt content (mkPosition (line p) 0) + Z.min (character p) len)%Z
   /\ (0 <= offsetAt content p <= Z.of_nat (length content))%Z)
  /\ ((length (splitLines content) <= Z.to_nat (line p))%nat ->
      offsetAt content p = (Z.of_nat (length content) + 1)%Z).
Proof.
  intros [Hl Hc]. pose proof (length_content_lines content) as Hlen.
  destruct p as [pl pc]. simpl in *. split.
  - intros Hlt. unfold lineText.
    destruct (splitLines content !! Z.to_nat pl) as [l|] eqn:Hk.
    2:{ apply lookup_ge_None in Hk. lia. }
    pose proof (lineStart_lineEnd_le _ _ _ Hk) as Hle.
    unfold offsetAt, lineTextAt, lines. simpl.
    destruct (Z.ltb_spec pl 0); [lia|]. rewrite Hk. simpl. lia.
  - intros Hge. unfold offsetAt, lineTextAt, lines. simpl.
    destruct (Z.ltb_spec pl 0); [lia|].
    rewrite take_ge by lia.
    rewrite (proj2 (lookup_ge_None _ _) Hge). simpl. lia.
Qed.

Lemma offsetAt_clamps_witness :
  ((Z.to_nat 1 < length (splitLines nestedExample))%nat ->
   let len := Z.of_nat (length (lineText nestedExample (Z.to_nat 1))) in
   offsetAt nestedExample (mkPosition 1 99)
   = (offsetAt nestedExample (mkPosition 1 0) + Z.min 99 len)%Z
   /\ (0 <= offsetAt nestedExample (mkPosition 1 99)
       <= Z.of_nat (length nestedExample))%Z)
  /\ ((length (splitLines nestedExample) <= Z.to_nat 1)%nat ->
      offsetAt nestedExample (mkPosition 1 99)
      = (Z.of_nat (length nestedExample) + 1)%Z).
Proof.
  apply (offsetAt_clamps nestedExample (mkPosition 1 99)).
  unfold pos_nonneg. simpl. lia.
Defined.

(** The lines of a document joined by newlines are the document, and
    [getText] over the range of the whole document returns it. *)
Theorem getText_fullRange (content : list ascii) :
  joinLines (lines content) = content
  /\ getText content (fullRange content) = content.
Proof.
  split; [apply joinLines_splitLines|].
  unfold fullRange. cbv zeta.
  pose proof (splitLines_nonempty content) as Hne.
  assert (Hn : (0 < length (splitLines content))%nat)
    by (destruct (splitLines content); [congruence | simpl; lia]).
  change 0%Z with (Z.of_nat 0) at 1.
  rewrite getText_lines by lia.
  unfold linesBetween.
  replace (S (length (splitLines content) - 1)) with (length (splitLines content))
    by lia.
  rewrite take_ge by lia. simpl. apply joinLines_splitLines.
Qed.

End DocumentRoundTrips.

(** * The tracker under streams of events *)

Module TrackerStreamProps.

Import InsertionTracker Coordinator Spec TextProps TrackerProps.
Local Open Scope Z_scope.

(** *** The order of positions (tests/mocks/vscode.ts) *)

(** [isBefore], [isEqual] and [isAfter] split the pairs of positions in
    three; [isAfter] is [isBefore] with the arguments exchanged and
    [isEqual] holds of equal positions only. *)
Theorem position_order_trichotomy (p q : Position) :
  ((isBefore p q = true /\ isEqual p q = false /\ isAfter p q = false)
   \/ (isBefore p q = false /\ isEqual p q = true /\ isAfter p q = false)
   \/ (isBefore p q = false /\ isEqual p q = false /\ isAfter p q = true))
  /\ isAfter p q = isBefore q p
  /\ (isEqual p q = true <-> p = q)
  /\ (isBefore p q = true \/ isEqual p q = true <-> pos_le p q).
Proof.
  destruct p as [pl pc], q as [ql qc].
  unfold isBefore, isEqual, isAfter, pos_le. simpl.
  rewrite ?Z.gtb_ltb.
  destruct (Z.ltb_spec pl ql), (Z.ltb_spec ql pl), (Z.eqb_spec pl ql),
    (Z.eqb_spec ql pl), (Z.ltb_spec pc qc), (Z.ltb_spec qc pc),
    (Z.eqb_spec pc qc); simpl; try lia;
    (repeat split; try tauto; try lia; try congruence;
     try (intros [=]; lia); try (intros; f_equal; lia);
     try (intros [H'|H']; first [discriminate | lia])).
Qed.

(** *** Start before end *)

(** One step of rebasing keeps the start of a well-formed range at or
    before its end, except in one situation: the change overlaps a range
    of several lines whose end column is smaller than its start column,
    and the line delta brings the end line to line 0 or above it; both
    lines are then 0 and the columns are out of order. *)
Theorem shiftRange_start_before_end (r : Range) (change : ContentChange.t) :
  range_wf r ->
  range_wf (ContentChange.range change) ->
  pos_le (start (shiftRange r change)) (end_ (shiftRange r change))
  <-> ~ (overlaps r change
         /\ line (start r) < line (end_ r)
         /\ line (end_ r) + specLineDelta change <= 0
         /\ character (end_ r) < character (start r)).
Proof.
  intros Hr Hc. rewrite <- lineDelta_spec.
  pose proof (lastNewLineLength_nonneg (ContentChange.text change)) as Hlast.
  pose proof (addedLineCount_newlines (ContentChange.text change)) as Hadd.
  assert (Hadd0 : 0 <= addedLineCount (ContentChange.text change)) by lia.
  clear Hadd.
  unfold overlaps, range_wf, pos_nonneg, pos_le in *.
  destruct r as [[rsl rsc] [rel rec]].
  destruct change as [[[csl csc] [cel cec]] t].
  unfold shiftRange, changeAfter, changeBefore, changeAbuts, lineDelta,
    removedLineCount, translate in *. simpl in *.
  set (added := addedLineCount t) in *. set (lastLen := lastNewLineLength t) in *.
  clearbody added lastLen.
  rewrite ?Z.gtb_ltb, ?Z.geb_leb.
  repeat (match goal with
          | |- context [Z.ltb ?x ?y] => destruct (Z.ltb_spec x y)
          | |- context [Z.leb ?x ?y] => destruct (Z.leb_spec x y)
          | |- context [Z.eqb ?x ?y] => destruct (Z.eqb_spec x y)
          end; simpl);
  (split; [intros Hord (Hov & Hrest) | intros Hno]);
  try lia;
  try (destruct Hov as (? & ? & ?); discriminate);
  try (destruct (Z.le_gt_cases (rel + (added - (cel - csl))) 0);
       destruct (Z.lt_ge_cases rec rsc);
       try lia;
       exfalso; apply Hno; repeat split; lia).
Qed.

Lemma shiftRange_start_before_end_witness :
  pos_le (start (shiftRange (Range4 5 10 6 2)
                   (ContentChange.mk (Range4 0 0 8 0) [])))
         (end_ (shiftRange (Range4 5 10 6 2)
                  (ContentChange.mk (Range4 0 0 8 0) [])))
  <-> ~ (overlaps (Range4 5 10 6 2) (ContentChange.mk (Range4 0 0 8 0) [])
         /\ line (start (Range4 5 10 6 2)) < line (end_ (Range4 5 10 6 2))
         /\ line (end_ (Range4 5 10 6 2))
            + specLineDelta (ContentChange.mk (Range4 0 0 8 0) []) <= 0
         /\ character (end_ (Range4 5 10 6 2))
            < character (start (Range4 5 10 6 2))).
Proof.
  apply (shiftRange_start_before_end (Range4 5 10 6 2)
           (ContentChange.mk (Range4 0 0 8 0) []));
    unfold range_wf, pos_nonneg, pos_le; simpl; lia.
Defined.

(** *** Events one after the other *)

Lemma adjustEntry_uri (e : ChangeEvent) (entry : PendingInsertion.t) :
  PendingInsertion.uri (adjustEntry e entry) = PendingInsertion.uri entry
  /\ PendingInsertion.id (adjustEntry e entry) = PendingInsertion.id entry.
Proof. unfold adjustEntry. destruct (decide _); split; reflexivity. Qed.

(** The changes of one event may as well come in two events of the same
    document, in the same order: the tracked ranges are the same. *)
Theorem adjustForChanges_batched (uri : string)
    (changes1 changes2 : list ContentChange.t)
    (pending : gmap string PendingInsertion.t) :
  adjustForChanges (mkChangeEvent uri (changes1 ++ changes2)) pending
  = adjustForChanges (mkChangeEvent uri changes2)
      (adjustForChanges (mkChangeEvent uri changes1) pending).
Proof.
  apply map_eq. intros id. rewrite !adjustForChanges_lookup.
  destruct (pending !! id) as [entry|]; [|reflexivity]. simpl. f_equal.
  unfold adjustEntry. simpl.
  destruct (decide (PendingInsertion.uri entry = uri)) as [Heq|Hne]; simpl.
  - destruct (decide (PendingInsertion.uri entry = uri)); [|contradiction].
    unfold shiftThrough. simpl. now rewrite fold_left_app.
  - destruct (decide (PendingInsertion.uri entry = uri)); [contradiction|].
    reflexivity.
Qed.

Lemma deliver_lookup (events : list ChangeEvent)
    (pending : gmap string PendingInsertion.t) (id : string) :
  deliver events pending !! id
  = (fun entry => fold_left (fun en e => adjustEntry e en) events entry)
      <$> pending !! id.
Proof.
  unfold deliver. revert pending.
  induction events as [|e events IH]; intros pending; simpl.
  - now destruct (pending !! id).
  - rewrite IH, adjustForChanges_lookup. now destruct (pending !! id).
Qed.

Lemma deliver_dom (events : list ChangeEvent)
    (pending : gmap string PendingInsertion.t) :
  dom (deliver events pending) = dom pending.
Proof.
  unfold deliver. revert pending.
  induction events as [|e events IH]; intros pending; simpl; [reflexivity|].
  now rewrite IH, adjustForChanges_dom.
Qed.

Lemma deliver_delete (events : list ChangeEvent)
    (pending : gmap string PendingInsertion.t) (id : string) :
  deliver events (delete id pending) = delete id (deliver events pending).
Proof.
  apply map_eq. intros other. rewrite deliver_lookup.
  destruct (decide (other = id)) as [->|Hne].
  - now rewrite !lookup_delete_eq.
  - now rewrite !lookup_delete_ne, deliver_lookup by congruence.
Qed.

(** [remove] of an id that is not tracked changes nothing, a second
    [remove] changes nothing more, and [remove] may come before or after
    any document change events: the tracker ends the same. *)
Theorem remove_idempotent_and_commutes
    (events : list ChangeEvent) (pending : gmap string PendingInsertion.t)
    (id : string) :
  (pending !! id = None -> remove id pending = pending)
  /\ remove id (remove id pending) = remove id pending
  /\ remove id (deliver events pending) = deliver events (remove id pending)
  /\ forall other, other <> id ->
       remove id pending !! other = pending !! other.
Proof.
  unfold remove. repeat split.
  - apply delete_id.
  - apply delete_id, lookup_delete_eq.
  - symmetry. apply deliver_delete.
  - intros other Hne. now apply lookup_delete_ne.
Qed.

(** *** A whole request *)

(** A request that tracks a fresh id leaves nothing behind: however the
    backend answers (rejected, cancelled, blank, or text that is then
    written or not), however the write ends (it resolves, or it is
    rejected and the [catch] block removes the id that [applyResult] left
    tracked), whatever document changes arrive while the request runs and
    while the write is awaited, and whether or not showing the fallback
    document fails, the id is not tracked at the end and the tracked ids
    are those from before the request. *)
Theorem request_leaves_no_trace
    (host : Host) (showFallbackFails : bool)
    (pending tracked : gmap string PendingInsertion.t)
    (requestId uri : string) (range : Range)
    (events1 events2 : list ChangeEvent) (outcome : RunOutcome) :
  pending !! requestId = None ->
  track requestId uri range pending = Returned tracked ->
  let final :=
    completeRequest host (deliver events2) showFallbackFails requestId outcome
      (deliver events1 tracked) in
  final !! requestId = None
  /\ dom final = dom pending
  /\ activeCount final = activeCount pending.
Proof.
  intros Hfresh [= <-] final.
  set (running := deliver events1
                    (<[requestId := PendingInsertion.mk requestId uri range]> pending))
    in *.
  assert (Hdom : forall events,
             dom (delete requestId
                    (deliver events
                       (<[requestId := PendingInsertion.mk requestId uri range]>
                          pending)))
             = dom pending).
  { intros events.
    now rewrite <- deliver_delete, deliver_dom, delete_insert_id. }
  assert (Hcases : final = delete requestId running
                   \/ final = delete requestId (deliver events2 running)).
  { unfold final, completeRequest, remove.
    destruct outcome as [result|]; [|now left].
    destruct (cancelled result); [now left|].
    destruct (TextDocument.trim (resultText result)); [now left|].
    unfold applyResult.
    destruct (applyResult_begin host requestId (resultText result) running)
      as [res pending'|editor r t] eqn:Hbegin.
    - unfold applyResult_begin in Hbegin.
      destruct (running !! requestId) as [entry|] eqn:Hlook.
      + left.
        destruct (List.find _ (textDocuments host));
          [destruct (List.find _ (visibleTextEditors host))|];
          try discriminate; injection Hbegin as <- <-;
          simpl; destruct showFallbackFails; simpl;
          rewrite ?(delete_id (delete requestId running)) by apply lookup_delete_eq;
          reflexivity.
      + exfalso. unfold running in Hlook.
        rewrite deliver_lookup, lookup_insert_eq in Hlook. discriminate.
    - right. unfold applyResult_resume.
      destruct (edit host editor r t) as [success|]; [|reflexivity].
      destruct (negb success && showFallbackFails); [|reflexivity].
      apply delete_id, lookup_delete_eq. }
  assert (Hfinal : final !! requestId = None /\ dom final = dom pending).
  { destruct Hcases as [->| ->].
    - split; [apply lookup_delete_eq | apply (Hdom events1)].
    - split; [apply lookup_delete_eq|]. unfold running, deliver.
      rewrite <- fold_left_app. apply (Hdom (events1 ++ events2)). }
  destruct Hfinal as [Hnone Hd]. repeat split; [exact Hnone | exact Hd|].
  unfold activeCount. rewrite <- !size_dom. now rewrite Hd.
Qed.

Lemma request_leaves_no_trace_witness :
  let final :=
    completeRequest rejectingHost
      (deliver [mkChangeEvent "d" [ContentChange.mk (Range4 0 0 0 0) twoLines]])
      false "req-1"
      (RunResolved (mkProviderResult (txt "x") false))
      (deliver [mkChangeEvent "d" [ContentChange.mk (Range4 2 0 2 0) twoLines]]
         (<["req-1" := PendingInsertion.mk "req-1" "d" (Range4 10 0 12 5)]> ∅)) in
  final !! "req-1"%string = None
  /\ dom final = dom (∅ : gmap string PendingInsertion.t)
  /\ activeCount final = activeCount ∅.
Proof.
  apply (request_leaves_no_trace rejectingHost false ∅ _ "req-1" "d" (Range4 10 0 12 5)
           [mkChangeEvent "d" [ContentChange.mk (Range4 2 0 2 0) twoLines]]
           [mkChangeEvent "d" [ContentChange.mk (Range4 0 0 0 0) twoLines]]
           (RunResolved (mkProviderResult (txt "x") false))).
  - apply lookup_empty.
  - reflexivity.
Defined.

(** *** A change and its undo *)

(** A text inserted at or before the start of a range, or at or after its
    end, and then taken out again leaves the range as it was. *)
Theorem shiftRange_insert_then_undo (r : Range) (p : Position)
    (newText : list ascii) :
  range_wf r -> pos_nonneg p ->
  pos_le p (start r) \/ pos_le (end_ r) p ->
  shiftRange (shiftRange r (insertionAt p newText)) (undoInsertion p newText) = r.
Proof.
  intros (Hs & He & Hse) Hp Hside.
  destruct r as [[sl sc] [el ec]]. destruct p as [pl pc].
  unfold range_wf, pos_nonneg, pos_le in *. simpl in *.
  pose proof (lastNewLineLength_nonneg newText) as Hll.
  pose proof (addedLineCount_newlines newText) as Hadded.
  remember (shiftRange (mkRange (mkPosition sl sc) (mkPosition el ec))
              (insertionAt (mkPosition pl pc) newText)) as r' eqn:Hr'.
  revert Hr'.
  unfold undoInsertion, insertedEnd, insertionAt.
  unfold shiftRange at 1.
  unfold changeAfter, changeBefore, changeAbuts, lineDelta, removedLineCount,
    translate.
  cbn [line character start end_ ContentChange.range ContentChange.text].
  rewrite Hadded. clear Hadded.
  set (ll := lastNewLineLength newText) in *. clearbody ll.
  set (a := newlines newText) in *. clearbody a.
  rewrite ?Z.gtb_ltb, ?Z.geb_leb.
  repeat (match goal with
          | |- context [Z.ltb ?x ?y] => destruct (Z.ltb_spec x y)
          | |- context [Z.leb ?x ?y] => destruct (Z.leb_spec x y)
          | |- context [Z.eqb ?x ?y] => destruct (Z.eqb_spec x y)
          end; try lia; cbn [orb andb]; cbv iota);
    intros ->;
    unfold shiftRange, changeAfter, changeBefore, changeAbuts, lineDelta,
      removedLineCount, translate;
    cbn [line character start end_ ContentChange.range ContentChange.text];
    change (addedLineCount []) with 0; change (lastNewLineLength []) with 0;
    destruct (Nat.eqb_spec a 0);
    cbn [line character start end_];
    rewrite ?Z.gtb_ltb, ?Z.geb_leb;
    repeat (match goal with
            | |- context [Z.ltb ?x ?y] => destruct (Z.ltb_spec x y)
            | |- context [Z.leb ?x ?y] => destruct (Z.leb_spec x y)
            | |- context [Z.eqb ?x ?y] => destruct (Z.eqb_spec x y)
            end; try lia; cbn [orb andb line character start end_]; cbv iota);
    try reflexivity; f_equal; f_equal; lia.
Qed.

Lemma shiftRange_insert_then_undo_witness :
  shiftRange (shiftRange (Range4 5 10 6 2) (insertionAt (mkPosition 5 4) twoLines))
    (undoInsertion (mkPosition 5 4) twoLines)
  = Range4 5 10 6 2.
Proof.
  apply (shiftRange_insert_then_undo (Range4 5 10 6 2) (mkPosition 5 4) twoLines);
    unfold range_wf, pos_nonneg, pos_le; simpl; lia.
Defined.

(** Inside the range the same does not hold: a line break typed after the
    start of a range and taken out again moves the start of the range. *)
Lemma shiftRange_undo_inside_moves_start :
  shiftRange (shiftRange (Range4 5 10 6 0) (insertionAt (mkPosition 5 12) [NL]))
    (undoInsertion (mkPosition 5 12) [NL])
  = Range4 5 22 6 0.
Proof. reflexivity. Qed.

End TrackerStreamProps.

(** ** Trimming *)

Module TrimProps.

Import TextDocument.

Lemma trimEnd_nil_iff (s : list ascii) :
  trimEnd s = [] <-> forallb isWhiteSpace s = true.
Proof.
  induction s as [|c s IH]; simpl; [tauto|].
  destruct (trimEnd s) as [|x t].
  - destruct (isWhiteSpace c); simpl; [tauto|].
    split; [discriminate | discriminate].
  - split; [discriminate|]. intros H. apply andb_true_iff in H as [_ H].
    apply IH in H. discriminate.
Qed.

Lemma trimStart_nil_iff (s : list ascii) :
  trimStart s = [] <-> forallb isWhiteSpace s = true.
Proof.
  induction s as [|c s IH]; simpl; [tauto|].
  destruct (isWhiteSpace c); simpl; [exact IH|].
  split; discriminate.
Qed.

Lemma trimStart_head (s : list ascii) :
  match trimStart s with
  | [] => True
  | c :: _ => isWhiteSpace c = false
  end.
Proof.
  induction s as [|c s IH]; simpl; [exact I|].
  destruct (isWhiteSpace c) eqn:E; [exact IH | exact E].
Qed.

Lemma trimEnd_cons_nonws (c : ascii) (s : list ascii) :
  isWhiteSpace c = false -> trimEnd (c :: s) = c :: trimEnd s.
Proof. intros H. simpl. rewrite H. now destruct (trimEnd s). Qed.

Lemma trimEnd_idem (s : list ascii) : trimEnd (trimEnd s) = trimEnd s.
Proof.
  induction s as [|c s IH]; [reflexivity|]. simpl.
  destruct (trimEnd s) as [|x t] eqn:E.
  - destruct (isWhiteSpace c) eqn:Ec; [reflexivity|]. simpl. now rewrite Ec.
  - change (trimEnd (c :: x :: t))
      with (match trimEnd (x :: t) with
            | [] => if isWhiteSpace c then [] else [c]
            | t' => c :: t'
            end).
    now rewrite IH.
Qed.

Lemma trim_head (s : list ascii) :
  match trim s with
  | [] => True
  | c :: _ => isWhiteSpace c = false
  end.
Proof.
  unfold trim. pose proof (trimStart_head s) as H.
  destruct (trimStart s) as [|c r]; [exact I|].
  now rewrite (trimEnd_cons_nonws c r H).
Qed.

Lemma trim_nil_iff (s : list ascii) :
  trim s = [] <-> forallb isWhiteSpace s = true.
Proof.
  unfold trim. rewrite <- trimStart_nil_iff.
  pose proof (trimStart_head s) as H.
  destruct (trimStart s) as [|c r]; [tauto|].
  rewrite (trimEnd_cons_nonws c r H). split; discriminate.
Qed.

Lemma trim_idem (s : list ascii) : trim (trim s) = trim s.
Proof.
  pose proof (trim_head s) as H. unfold trim in *.
  destruct (trimEnd (trimStart s)) as [|c r] eqn:E; [reflexivity|].
  simpl trimStart. rewrite H. rewrite <- E. apply trimEnd_idem.
Qed.

Lemma trimEnd_trim (s : list ascii) : trimEnd (trim s) = trim s.
Proof. unfold trim. apply trimEnd_idem. Qed.

Lemma trimEnd_app_fixed (x e : list ascii) :
  e <> [] -> trimEnd e = e -> trimEnd (x ++ e) = x ++ e.
Proof.
  intros Hne He. induction x as [|c x IH]; [exact He|].
  simpl. rewrite IH. destruct (x ++ e) eqn:E; [|reflexivity].
  apply app_eq_nil in E as [_ E]. contradiction.
Qed.

Lemma trimEnd_app_blank (x ws : list ascii) :
  forallb isWhiteSpace ws = true -> trimEnd (x ++ ws) = trimEnd x.
Proof.
  intros Hws. induction x as [|c x IH]; simpl.
  - now apply trimEnd_nil_iff.
  - now rewrite IH.
Qed.

Lemma trimStart_app_blank (ws x : list ascii) :
  forallb isWhiteSpace ws = true -> trimStart (ws ++ x) = trimStart x.
Proof.
  induction ws as [|c ws IH]; simpl; [reflexivity|].
  intros H. apply andb_true_iff in H as [Hc H]. rewrite Hc. now apply IH.
Qed.

End TrimProps.

(** ** Slash commands *)

Module SlashProps.

Import TextDocument SlashCommands TextProps TrimProps.

Lemma startsWith_spec (s p : list ascii) :
  startsWith s p = true <-> exists r, s = p ++ r.
Proof.
  revert s. induction p as [|c p IH]; intros s.
  - destruct s; simpl; split; eauto.
  - destruct s as [|x s]; simpl.
    + split; [discriminate | intros [r Hr]; discriminate].
    + rewrite andb_true_iff, IH. split.
      * intros [Hc [r ->]]. apply chr_eqb_eq in Hc. subst. eauto.
      * intros [r [= -> ->]]. split; [apply chr_eqb_eq; reflexivity | eauto].
Qed.

Lemma matchActions_cons (action : QuickAction) (others : list QuickAction)
    (trimmed : list ascii) :
  matchActions (action :: others) trimmed
  = if bool_decide (trimmed = commandPrefix action)
       || startsWith trimmed (commandPrefix action ++ txt " ")
    then Some (action, trim (drop (length (commandPrefix action)) trimmed))
    else matchActions others trimmed.
Proof. reflexivity. Qed.

Lemma matchActions_hit (action : QuickAction) (others : list QuickAction)
    (rest : list ascii) :
  rest = [] \/ (exists r, rest = txt " " ++ r) ->
  matchActions (action :: others) (commandPrefix action ++ rest)
  = Some (action, trim rest).
Proof.
  intros Hrest. rewrite matchActions_cons.
  assert (Hcond : bool_decide (commandPrefix action ++ rest = commandPrefix action)
                  || startsWith (commandPrefix action ++ rest)
                       (commandPrefix action ++ txt " ") = true).
  { destruct Hrest as [->|[r ->]].
    - rewrite app_nil_r, bool_decide_eq_true_2; reflexivity.
    - apply orb_true_iff. right. apply startsWith_spec. exists r.
      now rewrite <- app_assoc. }
  rewrite Hcond. now rewrite drop_app_length.
Qed.

Lemma matchActions_miss (action : QuickAction) (others : list QuickAction)
    (trimmed : list ascii) :
  trimmed <> commandPrefix action ->
  startsWith trimmed (commandPrefix action ++ txt " ") = false ->
  matchActions (action :: others) trimmed = matchActions others trimmed.
Proof.
  intros Hne Hs. rewrite matchActions_cons. now rewrite bool_decide_eq_false_2, Hs.
Qed.

(** What a match of the loop says, whatever the table of actions. *)
Lemma matchActions_sound (actions : list QuickAction) (trimmed : list ascii)
    (action : QuickAction) (extra : list ascii) :
  matchActions actions trimmed = Some (action, extra) ->
  action ∈ actions
  /\ exists rest,
       trimmed = commandPrefix action ++ rest
       /\ (rest = [] \/ exists r, rest = txt " " ++ r)
       /\ extra = trim rest.
Proof.
  induction actions as [|a actions IH]; [discriminate|]. rewrite matchActions_cons.
  destruct (bool_decide (trimmed = commandPrefix a)
            || startsWith trimmed (commandPrefix a ++ txt " ")) eqn:Hcond.
  - intros [= <- <-]. split; [apply list_elem_of_here|].
    change (S (length (txt (slash a)))) with (length (commandPrefix a)).
    apply orb_true_iff in Hcond as [Heq|Hs].
    + apply bool_decide_eq_true_1 in Heq. exists []. rewrite app_nil_r.
      subst trimmed. rewrite drop_all. auto.
    + apply startsWith_spec in Hs as [r ->]. rewrite <- app_assoc.
      exists (txt " " ++ r). rewrite drop_app_length. eauto.
  - intros H. apply IH in H as [Hin H]. split; [now apply list_elem_of_further|].
    exact H.
Qed.

Ltac skip_action :=
  rewrite matchActions_miss;
  [| let H := fresh in
     intros H; apply (f_equal (take 2)) in H; vm_compute in H; discriminate
   | vm_compute; reflexivity].

(** In the table of the extension no command is the beginning of another
    one, so the order of the table plays no part. *)
Lemma matchActions_complete (action : QuickAction) (rest : list ascii) :
  action ∈ QUICK_ACTIONS ->
  rest = [] \/ (exists r, rest = txt " " ++ r) ->
  matchActions QUICK_ACTIONS (commandPrefix action ++ rest)
  = Some (action, trim rest).
Proof.
  intros Hin Hrest. unfold QUICK_ACTIONS in *.
  apply elem_of_cons in Hin as [->|Hin]; [now apply matchActions_hit|].
  apply elem_of_cons in Hin as [->|Hin];
    [skip_action; now apply matchActions_hit|].
  apply elem_of_cons in Hin as [->|Hin];
    [do 2 skip_action; now apply matchActions_hit|].
  apply elem_of_cons in Hin as [->|Hin];
    [do 3 skip_action; now apply matchActions_hit|].
  now apply not_elem_of_nil in Hin.
Qed.

Lemma startsWith_commandPrefix (action : QuickAction) (rest : list ascii) :
  startsWith (commandPrefix action ++ rest) (txt "/") = true.
Proof.
  apply startsWith_spec. exists (txt (slash action) ++ rest).
  unfold commandPrefix. now rewrite <- app_assoc.
Qed.

(** The input is a slash command exactly when, trimmed, it is ["/"] and the
    name of an action of the table, followed by nothing or by a space and
    any text; the action is then that one, whatever its place in the
    table, and the extra text is what follows the name, trimmed. *)
Theorem parseSlashCommand_iff (input : list ascii) (action : QuickAction)
    (extra : list ascii) :
  parseSlashCommand input = Some (action, extra)
  <-> action ∈ QUICK_ACTIONS
      /\ exists rest,
           trim input = txt "/" ++ txt (slash action) ++ rest
           /\ (rest = [] \/ exists r, rest = txt " " ++ r)
           /\ extra = trim rest.
Proof.
  unfold parseSlashCommand. split.
  - destruct (startsWith (trim input) (txt "/")); [|discriminate]. cbn [negb].
    intros H. apply matchActions_sound in H as [Hin (rest & Ht & Hr & He)].
    split; [exact Hin|]. exists rest. split; [exact Ht | auto].
  - intros [Hin (rest & Ht & Hr & ->)].
    change (txt "/" ++ txt (slash action) ++ rest)
      with (commandPrefix action ++ rest) in Ht.
    rewrite Ht.
    rewrite startsWith_commandPrefix.
    cbn [negb]. now apply matchActions_complete.
Qed.

(** The label written for a parsed command parses back to the same action
    and the same extra text. *)
Theorem parseSlashCommand_commentLabel (action : QuickAction) (text : list ascii) :
  action ∈ QUICK_ACTIONS ->
  parseSlashCommand (commentLabel action (trim text)) = Some (action, trim text).
Proof.
  intros Hin. unfold parseSlashCommand, commentLabel.
  pose proof (trim_head text) as Hhead. pose proof (trimEnd_trim text) as Hend.
  pose proof (trim_idem text) as Hidem.
  destruct (trim text) as [|c r] eqn:E.
  - rewrite app_nil_r.
    assert (Ht : trim (txt "/" ++ txt (slash action)) = commandPrefix action ++ []).
    { unfold QUICK_ACTIONS in Hin.
      repeat (apply elem_of_cons in Hin as [->|Hin]; [vm_compute; reflexivity|]).
      now apply not_elem_of_nil in Hin. }
    rewrite Ht.
    rewrite startsWith_commandPrefix.
    cbn [negb]. rewrite matchActions_complete; auto.
  - assert (Ht : trim (txt "/" ++ txt (slash action) ++ txt " " ++ c :: r)
                 = commandPrefix action ++ txt " " ++ c :: r).
    { unfold trim.
      assert (Hs : trimStart (txt "/" ++ txt (slash action) ++ txt " " ++ c :: r)
                   = (txt "/" ++ txt (slash action) ++ txt " ") ++ c :: r)
        by (now rewrite <- !app_assoc).
      rewrite Hs, trimEnd_app_fixed by (auto; discriminate).
      unfold commandPrefix. now rewrite <- !app_assoc. }
    rewrite Ht.
    rewrite startsWith_commandPrefix.
    cbn [negb]. rewrite matchActions_complete; eauto.
    do 2 f_equal. unfold trim at 1. simpl trimStart.
    destruct (isWhiteSpace c) eqn:Ec; [discriminate|].
    exact Hend.
Qed.

Lemma parseSlashCommand_commentLabel_witness :
  parseSlashCommand
    (commentLabel (mkQuickAction "Fix" "$(debug-alt)"
                     "Identify and fix bugs or issues in this code. Preserve the intended behavior."
                     "fix")
       (trim (txt "  the loop ")))
  = Some (mkQuickAction "Fix" "$(debug-alt)"
            "Identify and fix bugs or issues in this code. Preserve the intended behavior."
            "fix",
          trim (txt "  the loop ")).
Proof.
  apply parseSlashCommand_commentLabel.
  unfold QUICK_ACTIONS. repeat constructor.
Defined.

End SlashProps.

(** ** Code fences *)

Module FenceProps.

Import TextDocument SlashCommands CodeFences Spec TextProps TrimProps SlashProps.

Lemma afterFirstNewline_app (header rest : list ascii) :
  NL ∉ header -> afterFirstNewline (header ++ NL :: rest) = Some rest.
Proof.
  induction header as [|c header IH]; intros Hnl; simpl.
  - reflexivity.
  - apply not_elem_of_cons in Hnl as [Hc Hnl].
    destruct (chr_eqb c NL) eqn:E; [|now apply IH].
    apply chr_eqb_eq in E. congruence.
Qed.

Lemma afterFirstNewline_suffix (s body : list ascii) :
  afterFirstNewline s = Some body -> exists header, s = header ++ body.
Proof.
  induction s as [|c s IH]; [discriminate|]. simpl.
  destruct (chr_eqb c NL).
  - intros [= <-]. now exists [c].
  - intros H. apply IH in H as [header ->]. now exists (c :: header).
Qed.

Lemma lastClosingFence_cons (c : ascii) (s : list ascii) :
  lastClosingFence (c :: s)
  = match lastClosingFence s with
    | Some j => Some (S j)
    | None => if startsWith (c :: s) (NL :: FENCE) then Some 0%nat else None
    end.
Proof. reflexivity. Qed.

Lemma lastClosingFence_app (code rest : list ascii) :
  lastClosingFence rest = None ->
  lastClosingFence (code ++ NL :: FENCE ++ rest) = Some (length code).
Proof.
  intros Hrest. induction code as [|c code IH].
  - assert (Htick : forall s, lastClosingFence s = None ->
                              lastClosingFence ("`"%char :: s) = None).
    { intros s Hs. rewrite lastClosingFence_cons, Hs. reflexivity. }
    change ([] ++ NL :: FENCE ++ rest)
      with (NL :: "`"%char :: "`"%char :: "`"%char :: rest).
    rewrite lastClosingFence_cons, (Htick _ (Htick _ (Htick _ Hrest))).
    assert (Hs : startsWith (NL :: "`"%char :: "`"%char :: "`"%char :: rest)
                   (NL :: FENCE) = true)
      by (apply startsWith_spec; now exists rest).
    now rewrite Hs.
  - change ((c :: code) ++ NL :: FENCE ++ rest)
      with (c :: code ++ NL :: FENCE ++ rest).
    rewrite lastClosingFence_cons. now rewrite IH.
Qed.

Lemma partOf_refl (s : list ascii) : partOf s s.
Proof. exists [], []. now rewrite app_nil_r. Qed.

Lemma partOf_trans (a b c : list ascii) : partOf a b -> partOf b c -> partOf a c.
Proof.
  intros (p1 & q1 & ->) (p2 & q2 & ->). exists (p2 ++ p1), (q1 ++ q2).
  now rewrite <- !app_assoc.
Qed.

Lemma partOf_suffix (before s : list ascii) : partOf s (before ++ s).
Proof. exists before, []. now rewrite app_nil_r. Qed.

Lemma partOf_prefix (s after : list ascii) : partOf s (s ++ after).
Proof. now exists [], after. Qed.

Lemma trimStart_partOf (s : list ascii) : partOf (trimStart s) s.
Proof.
  induction s as [|c s IH]; simpl; [apply partOf_refl|].
  destruct (isWhiteSpace c); [|apply partOf_refl].
  apply (partOf_trans _ s); [exact IH | apply (partOf_suffix [c])].
Qed.

Lemma trimEnd_prefix (s : list ascii) : exists after, s = trimEnd s ++ after.
Proof.
  induction s as [|c s [after IH]]; [now exists []|]. simpl.
  destruct (trimEnd s) as [|x t] eqn:E.
  - destruct (isWhiteSpace c).
    + now exists (c :: s).
    + exists s. reflexivity.
  - exists after. simpl. now rewrite IH at 1.
Qed.

Lemma trimEnd_partOf (s : list ascii) : partOf (trimEnd s) s.
Proof.
  destruct (trimEnd_prefix s) as [after H]. rewrite H at 2. apply partOf_prefix.
Qed.

Lemma trim_partOf (s : list ascii) : partOf (trim s) s.
Proof.
  unfold trim. apply (partOf_trans _ (trimStart s));
    [apply trimEnd_partOf | apply trimStart_partOf].
Qed.

Lemma matchFence_partOf (trimmed group : list ascii) :
  matchFence trimmed = Some group -> partOf group trimmed.
Proof.
  unfold matchFence. destruct (startsWith trimmed FENCE); [|discriminate].
  destruct (afterFirstNewline (drop (length FENCE) trimmed)) as [body|] eqn:Hb;
    [|discriminate].
  destruct (lastClosingFence body) as [j|]; [|discriminate]. intros [= <-].
  apply afterFirstNewline_suffix in Hb as [header Hb].
  apply (partOf_trans _ body).
  { rewrite <- (take_drop j body) at 2. apply partOf_prefix. }
  apply (partOf_trans _ (drop (length FENCE) trimmed)).
  { rewrite Hb. apply partOf_suffix. }
  rewrite <- (take_drop (length FENCE) trimmed) at 2. apply partOf_suffix.
Qed.

(** A fenced block, with any language tag after the opening backticks and
    any white space around the block, is replaced by its code, trimmed at
    the end; the code may itself contain fences. *)
Theorem stripCodeFences_fenced (before language code after : list ascii) :
  forallb isWhiteSpace before = true ->
  forallb isWhiteSpace after = true ->
  NL ∉ language ->
  stripCodeFences
    (before ++ (FENCE ++ language ++ NL :: code ++ NL :: FENCE) ++ after)
  = trimEnd code.
Proof.
  intros Hb Ha Hnl. unfold stripCodeFences.
  set (block := FENCE ++ language ++ NL :: code ++ NL :: FENCE).
  assert (Htrim : trim (before ++ block ++ after) = block).
  { unfold trim. rewrite (trimStart_app_blank before) by exact Hb.
    assert (Hs : trimStart (block ++ after) = block ++ after) by reflexivity.
    rewrite Hs, (trimEnd_app_blank block after Ha).
    unfold block.
    replace (FENCE ++ language ++ NL :: code ++ NL :: FENCE)
      with ((FENCE ++ language ++ NL :: code ++ [NL]) ++ FENCE).
    - apply trimEnd_app_fixed; [discriminate | reflexivity].
    - rewrite <- !app_assoc. simpl. do 3 f_equal.
      now rewrite <- app_assoc. }
  rewrite Htrim. unfold matchFence.
  assert (Hstart : startsWith block FENCE = true).
  { apply startsWith_spec. now eexists. }
  rewrite Hstart. unfold block. rewrite drop_app_length.
  rewrite (afterFirstNewline_app language) by exact Hnl.
  rewrite <- (app_nil_r FENCE) at 1.
  rewrite (lastClosingFence_app code []) by reflexivity.
  now rewrite take_app_length.
Qed.

Lemma stripCodeFences_fenced_witness :
  stripCodeFences
    (txt " " ++ (FENCE ++ txt "ts" ++ NL :: (txt "const x = 1; " ++ NL :: FENCE)
                 ++ NL :: FENCE) ++ [NL])
  = trimEnd (txt "const x = 1; " ++ NL :: FENCE).
Proof.
  apply (stripCodeFences_fenced (txt " ") (txt "ts")
           (txt "const x = 1; " ++ NL :: FENCE) [NL]);
    [reflexivity | reflexivity |].
  apply (bool_decide_unpack _). vm_compute. exact I.
Defined.

(** What [stripCodeFences] returns is a contiguous part of its input and
    does not end in white space; for an input of white space only it is
    empty. *)
Theorem stripCodeFences_output (input : list ascii) :
  partOf (stripCodeFences input) input
  /\ trimEnd (stripCodeFences input) = stripCodeFences input
  /\ (forallb isWhiteSpace input = true -> stripCodeFences input = []).
Proof.
  unfold stripCodeFences. repeat split.
  - destruct (matchFence (trim input)) as [group|] eqn:Hm; [|apply trim_partOf].
    apply (partOf_trans _ group); [apply trimEnd_partOf|].
    apply (partOf_trans _ (trim input)); [|apply trim_partOf].
    now apply matchFence_partOf.
  - destruct (matchFence (trim input)); [apply trimEnd_idem | apply trimEnd_trim].
  - intros H. apply trim_nil_iff in H. now rewrite H.
Qed.

End FenceProps.

(** ** The context of the cursor *)

Module ContextProps.

Import TextDocument BlockLocator Spec TextProps DocumentProps LocatorProps.
Import DocumentRoundTrips TrimProps.

Lemma opens_app (s1 s2 : list ascii) : opens (s1 ++ s2) = (opens s1 + opens s2)%nat.
Proof. unfold opens. apply count_occ_app. Qed.

Lemma closes_app (s1 s2 : list ascii) :
  closes (s1 ++ s2) = (closes s1 + closes s2)%nat.
Proof. unfold closes. apply count_occ_app. Qed.

(** Up to the brace where it stops, the backward scan has read as many
    opening as closing braces, and never more opening than closing ones. *)
Lemma scanReversed_some_counts (l : list ascii) (depth : Z) (b : nat) :
  (0 <= depth)%Z ->
  scanReversed l depth = Some b ->
  (b < length l)%nat
  /\ let seg := take (length l - b - 1) l in
     (Z.of_nat (opens seg) = depth + Z.of_nat (closes seg))%Z
     /\ forall n, (Z.of_nat (opens (take n seg))
                   <= depth + Z.of_nat (closes (take n seg)))%Z.
Proof.
  revert depth. induction l as [|c l IH]; intros depth Hd H; [discriminate|].
  simpl in H.
  assert (Hrec : forall d,
    (0 <= d)%Z ->
    scanReversed l d = Some b ->
    (d + Z.of_nat ((if chr_eqb c LBRACE then 1 else 0))
     = depth + Z.of_nat ((if chr_eqb c RBRACE then 1 else 0)))%Z ->
    (b < length (c :: l))%nat
    /\ let seg := take (length (c :: l) - b - 1) (c :: l) in
       (Z.of_nat (opens seg) = depth + Z.of_nat (closes seg))%Z
       /\ forall n, (Z.of_nat (opens (take n seg))
                     <= depth + Z.of_nat (closes (take n seg)))%Z).
  { intros d Hd' Hscan Hstep.
    destruct (IH _ Hd' Hscan) as (Hlt & Hbal & Hpre).
    split; [simpl; lia|].
    replace (length (c :: l) - b - 1)%nat with (S (length l - b - 1))
      by (simpl; lia).
    simpl take. cbv zeta. rewrite opens_cons, closes_cons. split; [lia|].
    intros [|n]; [unfold opens, closes; simpl; lia|].
    simpl take. rewrite opens_cons, closes_cons. specialize (Hpre n). lia. }
  destruct (chr_eqb c RBRACE) eqn:Er.
  - assert (El : chr_eqb c LBRACE = false).
    { apply chr_eqb_eq in Er. subst c. reflexivity. }
    apply (Hrec (depth + 1)%Z); [lia | exact H | rewrite El; lia].
  - destruct (chr_eqb c LBRACE) eqn:El.
    + destruct (Z.eqb_spec depth 0) as [H0|Hn0].
      * injection H as <-. split; [simpl; lia|].
        replace (length (c :: l) - length l - 1)%nat with 0%nat by (simpl; lia).
        simpl. unfold opens, closes. simpl. split; [lia|].
        intros n. rewrite take_nil. simpl. lia.
      * apply (Hrec (depth - 1)%Z); [lia | exact H | lia].
    + apply (Hrec depth); [lia | exact H | lia].
Qed.

Lemma scanBackward_some_counts (t : list ascii) (offset b : nat) :
  (offset <= length t)%nat ->
  scanBackward t offset 0 = Some b ->
  (b < offset)%nat
  /\ let middle := drop (S b) (take offset t) in
     opens middle = closes middle
     /\ forall n, (closes (take n middle) <= opens (take n middle))%nat.
Proof.
  intros Hle H. rewrite scanBackward_reversed in H.
  apply scanReversed_some_counts in H as (Hlt & Hbal & Hpre); [|lia].
  rewrite length_rev, length_take in Hlt, Hbal, Hpre.
  replace (offset `min` length t)%nat with offset in * by lia.
  split; [exact Hlt|]. cbv zeta in *.
  set (x := take offset t) in *.
  assert (Hx : length x = offset) by (unfold x; rewrite length_take; lia).
  assert (Hseg : take (offset - b - 1) (rev x) = rev (drop (S b) x)).
  { rewrite firstn_rev, Hx. do 2 f_equal. lia. }
  rewrite Hseg in Hbal, Hpre. set (middle := drop (S b) x) in *.
  unfold opens, closes in Hbal. rewrite !count_occ_rev in Hbal.
  fold (opens middle) (closes middle) in Hbal.
  split; [lia|]. intros n.
  destruct (Nat.le_gt_cases n (length middle)) as [Hn|Hn].
  - specialize (Hpre (length middle - n)%nat).
    rewrite firstn_rev in Hpre.
    replace (length middle - (length middle - n))%nat with n in Hpre by lia.
    unfold opens, closes in Hpre. rewrite !count_occ_rev in Hpre.
    fold (opens (drop n middle)) (closes (drop n middle)) in Hpre.
    pose proof (opens_app (take n middle) (drop n middle)) as Ho.
    pose proof (closes_app (take n middle) (drop n middle)) as Hc.
    rewrite take_drop in Ho, Hc. lia.
  - rewrite take_ge by lia. lia.
Qed.

Lemma scanLine_no_newline (rest : list ascii) (i b : nat) :
  scanLine rest i = Some b -> NL ∉ take (b - i) rest.
Proof.
  revert i. induction rest as [|c rest IH]; intros i; [discriminate|].
  intros H. pose proof (scanLine_some _ _ _ H) as [Hle _]. simpl in H.
  destruct (chr_eqb c NL) eqn:En; [discriminate|].
  destruct (chr_eqb c LBRACE).
  - injection H as <-. rewrite Nat.sub_diag. apply not_elem_of_nil.
  - pose proof (scanLine_some _ _ _ H) as [Hle' _].
    replace (b - i)%nat with (S (b - S i)) by lia. simpl.
    apply not_elem_of_cons. split; [|now apply IH].
    apply chr_eqb_neq in En. congruence.
Qed.

Lemma lineOfOffset_same (content : list ascii) (a b : nat) :
  (a <= b)%nat ->
  NL ∉ take (b - a) (drop a content) ->
  lineOfOffset content b = lineOfOffset content a.
Proof.
  intros Hab Hnl. unfold lineOfOffset.
  replace b with (a + (b - a))%nat at 1 by lia.
  rewrite <- take_take_drop, newlines_app, (newlines_not_elem _ Hnl). lia.
Qed.

Lemma linesBetween_single (content : list ascii) (l : nat) :
  (l < length (splitLines content))%nat ->
  linesBetween content l l = lineText content l.
Proof.
  intros Hlt. unfold linesBetween, lineText.
  destruct (lookup_lt_is_Some_2 _ _ Hlt) as [x Hx].
  rewrite (take_S_r _ _ _ Hx), Hx.
  rewrite drop_app_length' by (rewrite length_take; lia).
  reflexivity.
Qed.

(** The block found for a cursor on a position of the document contains
    the cursor: its range starts at or before the cursor and ends at or
    after it.  The closing brace is at or after the cursor, and the
    opening brace is before the cursor or, found by the forward scan,
    after it on the line of the cursor. *)
Theorem getEnclosingBlock_contains_cursor
    (content : list ascii) (position : Position) (block : Block) :
  validPosition content position ->
  getEnclosingBlock content position = Some block ->
  pos_le (start (blockRange block)) position
  /\ pos_le position (end_ (blockRange block))
  /\ exists blockStart blockEnd : nat,
       let offset := Z.to_nat (offsetAt content position) in
       findBlockStart content offset = Some blockStart
       /\ findBlockEnd content blockStart = Some blockEnd
       /\ (offset < blockEnd)%nat
       /\ ((blockStart < offset)%nat
           \/ ((offset <= blockStart)%nat
               /\ Z.of_nat (lineOfOffset content blockStart) = line position)).
Proof.
  intros Hvalid Hblock.
  destruct (offsetAt_valid content position Hvalid) as (o & Ho & Hole & Hp).
  destruct Hvalid as (Hl & Hlt & Hc & Hcl).
  pose proof (positionAt_line content o Hole) as Hline. rewrite Hp in Hline.
  unfold getEnclosingBlock, getEnclosingBlockAt in Hblock.
  rewrite Ho, Nat2Z.id in *.
  destruct (findBlockStart content o) as [bs|] eqn:Hs; [|discriminate].
  destruct (findBlockEnd content bs) as [be|] eqn:He; [|discriminate].
  injection Hblock as <-.
  pose proof (findBlockEnd_some _ _ _ He) as (Hbe & Hlen & Hclose).
  assert (Hpos : (o <= be - 1)%nat
                 /\ ((bs < o)%nat
                     \/ ((o <= bs)%nat
                         /\ lineOfOffset content bs = lineOfOffset content o))).
  { unfold findBlockStart in Hs.
    destruct (scanBackward content o 0) as [i|] eqn:Hb.
    - injection Hs as ->.
      apply scanBackward_some_counts in Hb as (Hlto & _ & Hpre); [|exact Hole].
      split; [|now left].
      destruct (Nat.le_gt_cases o (be - 1)) as [Hin|Hout]; [exact Hin|].
      exfalso. unfold findBlockEnd in He.
      pose proof (scanClosing_some _ _ _ _ He) as (_ & _ & Hr).
      apply scanClosing_some_counts in He as [Hbal _]; [|lia].
      cbv zeta in Hbal, Hpre.
      specialize (Hpre (S (be - 1 - (bs + 1)))).
      assert (Hcut : take (S (be - 1 - (bs + 1))) (drop (S bs) (take o content))
                     = take (be - 1 - (bs + 1)) (drop (bs + 1) content)
                       ++ [RBRACE]).
      { rewrite take_drop_commute, take_take.
        replace ((S bs + S (be - 1 - (bs + 1))) `min` o)%nat
          with (S bs + S (be - 1 - (bs + 1)))%nat by lia.
        rewrite <- take_drop_commute.
        replace (S bs) with (bs + 1)%nat by lia.
        now apply take_S_r. }
      rewrite Hcut, opens_app, closes_app in Hpre.
      unfold opens at 2, closes at 2 in Hpre. simpl in Hpre. lia.
    - pose proof (scanLine_some _ _ _ Hs) as [Hle _].
      apply scanLine_no_newline in Hs.
      split; [lia|]. right. split; [exact Hle|].
      now apply lineOfOffset_same. }
  destruct Hpos as [Hinside Hopen].
  destruct (blockOf_spec content bs be ltac:(lia) Hlen Hclose)
    as (first & Hfirst & _ & _ & ->).
  cbv zeta. unfold Range4. simpl.
  pose proof (lineOfOffset_mono content o (be - 1) Hinside) as Hlast.
  assert (Hbs : (lineOfOffset content bs <= lineOfOffset content o)%nat).
  { destruct Hopen as [Hlt'|[_ ->]]; [apply lineOfOffset_mono; lia | lia]. }
  assert (Hlp : Z.to_nat (line position) = lineOfOffset content o) by lia.
  rewrite Hlp in Hcl.
  split; [|split].
  - unfold pos_le. simpl. lia.
  - unfold pos_le. simpl.
    destruct (Nat.eq_dec (lineOfOffset content o) (lineOfOffset content (be - 1)))
      as [Heq|Hne]; [right; rewrite <- Heq; lia | left; lia].
  - exists bs, be. split; [exact Hs|]. split; [exact He|]. split; [lia|].
    destruct Hopen as [Hlt'|[Hle Heq]]; [now left | right; split; [exact Hle | lia]].
Qed.

Lemma getEnclosingBlock_contains_cursor_witness :
  let block := mkBlock (txt "if (x) { y(); }") (Range4 0 0 0 15) in
  pos_le (start (blockRange block)) (mkPosition 0 3)
  /\ pos_le (mkPosition 0 3) (end_ (blockRange block))
  /\ exists blockStart blockEnd : nat,
       let offset :=
         Z.to_nat (offsetAt (txt "if (x) { y(); }") (mkPosition 0 3)) in
       findBlockStart (txt "if (x) { y(); }") offset = Some blockStart
       /\ findBlockEnd (txt "if (x) { y(); }") blockStart = Some blockEnd
       /\ (offset < blockEnd)%nat
       /\ ((blockStart < offset)%nat
           \/ ((offset <= blockStart)%nat
               /\ Z.of_nat (lineOfOffset (txt "if (x) { y(); }") blockStart)
                  = line (mkPosition 0 3))).
Proof.
  apply (getEnclosingBlock_contains_cursor (txt "if (x) { y(); }")
           (mkPosition 0 3)).
  - unfold validPosition. vm_compute. repeat split; try lia; discriminate.
  - reflexivity.
Defined.

(** Whatever context [getEditorContext] returns, its text is the text of
    the document at its range; a context of type line is a line of the
    document that is not blank. *)
Theorem getEditorContext_text_at_range
    (content : list ascii) (selection : Selection) (ctx : EditorContext) :
  getEditorContext content selection = Some ctx ->
  ctxText ctx = getText content (ctxRange ctx)
  /\ (ctxType ctx = CtxLine ->
      (0 <= line (active selection) < Z.of_nat (lineCount content))%Z
      /\ ctxText ctx = lineText content (Z.to_nat (line (active selection)))
      /\ trim (ctxText ctx) <> []).
Proof.
  unfold getEditorContext.
  destruct (negb (isEmpty (selected selection))).
  { intros [= <-]. simpl. split; [reflexivity | discriminate]. }
  destruct (getEnclosingBlock content (active selection)) as [block|] eqn:Hb.
  { intros [= <-]. simpl. split; [|discriminate].
    unfold getEnclosingBlock, getEnclosingBlockAt in Hb.
    destruct (findBlockStart _ _); [|discriminate].
    destruct (findBlockEnd _ _); [|discriminate].
    injection Hb as <-. reflexivity. }
  cbv zeta. unfold lineAt. simpl.
  set (l := line (active selection)).
  destruct (forallb isWhiteSpace (lineTextAt content l)) eqn:Hblank;
    [discriminate|].
  intros [= <-]. simpl.
  assert (Hline : (0 <= l)%Z /\ (Z.to_nat l < length (splitLines content))%nat).
  { unfold lineTextAt, lines in Hblank.
    destruct (Z.ltb_spec l 0); [discriminate|]. split; [lia|].
    destruct (splitLines content !! Z.to_nat l) eqn:Hk; [|discriminate].
    now apply lookup_lt_Some in Hk. }
  destruct Hline as [Hl Hlt].
  assert (Htext : lineTextAt content l = lineText content (Z.to_nat l)).
  { rewrite <- (Z2Nat.id l) at 1 by lia. apply lineTextAt_nat. }
  split.
  - rewrite Htext. rewrite <- (Z2Nat.id l) at 2 3 by lia.
    rewrite getText_lines by lia. symmetry. now apply linesBetween_single.
  - intros _. unfold lineCount, lines. split; [lia|]. split; [exact Htext|].
    intros Hempty. apply trim_nil_iff in Hempty. congruence.
Qed.

Lemma getEditorContext_text_at_range_witness :
  let ctx := mkEditorContext (txt "const x = 1;") CtxLine (Range4 0 0 0 12) in
  let selection := mkSelection (Range4 0 5 0 5) (mkPosition 0 5) in
  ctxText ctx = getText noBraceExample (ctxRange ctx)
  /\ (ctxType ctx = CtxLine ->
      (0 <= line (active selection) < Z.of_nat (lineCount noBraceExample))%Z
      /\ ctxText ctx = lineText noBraceExample (Z.to_nat (line (active selection)))
      /\ trim (ctxText ctx) <> []).
Proof.
  apply (getEditorContext_text_at_range noBraceExample
           (mkSelection (Range4 0 5 0 5) (mkPosition 0 5))).
  reflexivity.
Defined.

End ContextProps.
